(** * The plugin runtime of local_llm: a shallow embedding

    [packages/llm/local_llm/plugin.py] defines [Plugin], the node of a
    dataflow graph: every plugin owns a list of output plugins, optionally a
    queue drained by its own thread, and a [process] method supplied by the
    concrete stage.  [packages/llm/local_llm/plugins/chat_query.py] defines
    one such stage, [ChatQuery].

    Python objects live in a heap indexed by object identity; methods are
    functions in a state-and-exception monad over that heap.  The recursion
    [update -> output -> input -> update] of the source is tied by a fuel
    argument of [update].

    The thread that [__init__] starts for a threaded plugin runs [_run],
    which waits for the event, clears it and calls [update].  Threads are
    not part of the model: [input] on a threaded plugin enqueues the item
    and sets the event, and [update] is the drain that the thread (or a
    caller) performs. *)

From Stdlib Require Import ZArith QArith.
From stdpp Require Import base option list gmap strings.

Open Scope Z_scope.
Open Scope string_scope.
Open Scope list_scope.

(** ** Python values *)

(** Object identity of a plugin instance. *)
Abbreviation pid := nat (only parsing).

#[warnings="-register-all"]
Inductive value :=
  | VNone
  | VBool (b : bool)
  | VInt (z : Z)
  | VFloat (q : Q)
  | VStr (s : string)
  | VList (l : list value)
  | VDict (d : gmap string value)
  | VFunction (name : string)
  | VPlugin (p : pid)
  | VChatHistory (h : nat)
  | VStream (g : nat).

(** [x is None] *)
Definition is_None (v : value) : bool :=
  match v with VNone => true | _ => false end.

(** [callable(x)] for a value that is not a plugin instance. *)
Definition callable (v : value) : bool :=
  match v with VFunction _ => true | _ => false end.

(** The name of [type(x)].  It is read off the value for the builtin types
    and for [ChatHistory].  The class of a plugin instance is recorded in
    the heap ([mro]) and that of a callable is not recorded at all: for
    those the name of the base class stands in, and no statement below
    gives the text of a message that would print it. *)
Definition type_name (v : value) : string :=
  match v with
  | VNone => "NoneType"
  | VBool _ => "bool"
  | VInt _ => "int"
  | VFloat _ => "float"
  | VStr _ => "str"
  | VList _ => "list"
  | VDict _ => "dict"
  | VFunction _ => "function"
  | VPlugin _ => "local_llm.plugin.Plugin"
  | VChatHistory _ => "local_llm.history.ChatHistory"
  | VStream _ => "generator"
  end.

(** What an f-string prints for [{type(x)}]. *)
Definition type_repr (name : string) : string := "<class '" ++ name ++ "'>".

(** ** Exceptions *)

Inductive exn :=
  | AttributeError (cls attr : string)
  | IndexError (msg : string)
  | TypeError (msg : string)
  | ValueError (msg : string)
  | NotImplementedError (msg : string)
  | OtherError (cls msg : string).

Definition is_TypeError (e : exn) : bool :=
  match e with TypeError _ => true | _ => false end.

(** ** What a [process] method does

    A stage's [process] returns its output data or [None], may call
    [self.output] itself, may update the attributes of its own instance, and
    may raise.  Its run on one input is the sequence of these steps. *)

Inductive proc (S : Type) :=
  | PReturn (v : value)
  | PRaise (e : exn)
  | POutput (v : value) (channel : Z) (k : proc S)
  | PSetAttrs (a : S) (k : proc S).
Arguments PReturn {S} v.
Arguments PRaise {S} e.
Arguments POutput {S} v channel k.
Arguments PSetAttrs {S} a k.

(** ** Plugin instances, the heap and the call log *)

Record Plugin (S : Type) := mkPlugin {
  mro : list string;            (* the classes of the instance, most derived first *)
  relay : bool;
  threaded : bool;
  outputs : list pid;
  queue : option (list value);  (* present only if created with threaded=True *)
  event : option bool;          (* present only if created with threaded=True *)
  attrs : S                     (* the attributes the subclass adds *)
}.
Arguments mkPlugin {S}.
Arguments mro {S}.
Arguments relay {S}.
Arguments threaded {S}.
Arguments outputs {S}.
Arguments queue {S}.
Arguments event {S}.
Arguments attrs {S}.

(** The calls the runtime makes, in the order they are made. *)
Inductive call :=
  | CInput (target : pid) (v : value)     (* target.input(v) *)
  | CProcess (self : pid) (v : value).    (* self.process(v) *)

Record state (S : Type) := mkState {
  heap : gmap pid (Plugin S);
  calls : list call
}.
Arguments mkState {S}.
Arguments heap {S}.
Arguments calls {S}.

(** The outcome of a call: it returns, it raises, or the model gives up
    ([Fuel]: the call depth or the number of loop iterations exceeds the
    bound; [Wrong]: a reference to an object that is not in the heap, which
    no Python execution produces). *)
Inductive result (S A : Type) :=
  | Ok (a : A) (σ : state S)
  | Exc (e : exn) (σ : state S)
  | Fuel
  | Wrong.
Arguments Ok {S A}.
Arguments Exc {S A}.
Arguments Fuel {S A}.
Arguments Wrong {S A}.

Definition M (S A : Type) : Type := state S → result S A.

Definition ret {S A} (a : A) : M S A := fun σ => Ok a σ.

Definition bind {S A B} (m : M S A) (f : A → M S B) : M S B :=
  fun σ =>
    match m σ with
    | Ok a σ' => f a σ'
    | Exc e σ' => Exc e σ'
    | Fuel => Fuel
    | Wrong => Wrong
    end.

Definition raise {S A} (e : exn) : M S A := fun σ => Exc e σ.

Declare Scope py_scope.
Delimit Scope py_scope with py.
Notation "x <- m ;; k" := (bind m (fun x => k))
  (at level 100, m at next level, right associativity) : py_scope.
Notation "m ;;; k" := (bind m (fun _ => k))
  (at level 100, right associativity) : py_scope.
Open Scope py_scope.

Module PluginM.
Section Runtime.

(** The attributes a subclass adds, and the [process] method the class of
    an instance resolves to. *)
Context {S : Type}.
Variable process : list string → S → value → proc S.
(** The attributes of a [Callback] built around a callable. *)
Variable callback_attrs : value → S.

#[local] Abbreviation M := (M S).

(** *** Attribute access *)

Definition deref (p : pid) : M (Plugin S) :=
  fun σ => match heap σ !! p with Some nd => Ok nd σ | None => Wrong end.

Definition modify (p : pid) (f : Plugin S → Plugin S) : M unit :=
  fun σ =>
    match heap σ !! p with
    | Some nd => Ok tt (mkState (<[p := f nd]> (heap σ)) (calls σ))
    | None => Wrong
    end.

Definition log (c : call) : M unit :=
  fun σ => Ok tt (mkState (heap σ) (calls σ ++ [c])).

(** [type(self)], as its name. *)
Definition class_name (nd : Plugin S) : string :=
  match mro nd with c :: _ => c | [] => "object" end.

(** [self.queue] *)
Definition get_queue (self : pid) : M (list value) :=
  nd <- deref self ;;
  match queue nd with
  | Some q => ret q
  | None => raise (AttributeError (class_name nd) "queue")
  end.

(** [self.event] *)
Definition get_event (self : pid) : M bool :=
  nd <- deref self ;;
  match event nd with
  | Some b => ret b
  | None => raise (AttributeError (class_name nd) "event")
  end.

Definition set_queue (q : list value) (nd : Plugin S) : Plugin S :=
  mkPlugin (mro nd) (relay nd) (threaded nd) (outputs nd) (Some q) (event nd) (attrs nd).

Definition set_event (b : bool) (nd : Plugin S) : Plugin S :=
  mkPlugin (mro nd) (relay nd) (threaded nd) (outputs nd) (queue nd) (Some b) (attrs nd).

Definition set_outputs (l : list pid) (nd : Plugin S) : Plugin S :=
  mkPlugin (mro nd) (relay nd) (threaded nd) l (queue nd) (event nd) (attrs nd).

Definition set_attrs (a : S) (nd : Plugin S) : Plugin S :=
  mkPlugin (mro nd) (relay nd) (threaded nd) (outputs nd) (queue nd) (event nd) a.

(** [for x in l: f(x)] *)
Fixpoint for_each {A} (l : list A) (f : A → M unit) : M unit :=
  match l with
  | [] => ret tt
  | x :: l' => f x ;;; for_each l' f
  end.

(** *** Plugin.__init__ *)

Definition new_plugin (classes : list string) (a : S) (relay threaded : bool) : Plugin S :=
  mkPlugin classes relay threaded []
           (if threaded then Some [] else None)
           (if threaded then Some false else None)
           a.

Definition init (classes : list string) (a : S) (relay threaded : bool) : M pid :=
  fun σ =>
    let p := fresh (dom (heap σ)) in
    Ok p (mkState (<[p := new_plugin classes a relay threaded]> (heap σ)) (calls σ)).

(** Modelled from the spec: the class [Callback] of [local_llm.plugins],
    which [add] imports and which is not among the sources.  It wraps a
    plain function as a plugin whose [process] delegates to the function,
    and inherits the base construction (no relay, threaded). *)
Definition Callback (function : value) : M pid :=
  init ["Callback"; "Plugin"; "object"] (callback_attrs function) false true.

(** *** Plugin.process

    The base class leaves [process] to the stage. *)
Definition base_process (classes : list string) (a : S) (input : value) : proc S :=
  PRaise (NotImplementedError
            ("plugin "
               ++ type_repr (match classes with c :: _ => c | [] => "object" end)
               ++ " has not implemented process()")).

(** *** Plugin.add *)

Definition append_output (p q : pid) : M unit :=
  modify p (fun nd => set_outputs (outputs nd ++ [q]) nd).

Definition add (self : pid) (plugin : value) (mode : string) : M pid :=
  me <- deref self ;;
  target <- match plugin with
            | VPlugin q => _ <- deref q ;; ret q
            | _ =>
                if callable plugin then Callback plugin
                else raise (TypeError
                       (type_repr (class_name me)
                          ++ ".add() expects either a Plugin instance or a callable function (was "
                          ++ type_repr (type_name plugin) ++ ")"))
            end ;;
  (if String.eqb mode "output" then append_output self target
   else if String.eqb mode "input" then append_output target self
   else raise (ValueError "mode should either be 'input' or 'output'")) ;;;
  ret self.

(** *** Plugin.find *)

Definition isinstance (nd : Plugin S) (type : string) : bool :=
  bool_decide (type ∈ mro nd).

Fixpoint find (n : nat) (self : pid) (type : string) : M (option pid) :=
  match n with
  | O => fun _ => Fuel
  | Datatypes.S n =>
      me <- deref self ;;
      if isinstance me type then ret (Some self)
      else
        (fix loop (l : list pid) : M (option pid) :=
           match l with
           | [] => ret None
           | output :: l' =>
               o <- deref output ;;
               if isinstance o type then ret (Some output)
               else
                 plugin <- find n output type ;;
                 match plugin with
                 | Some p => ret (Some p)
                 | None => loop l'
                 end
           end) (outputs me)
  end.

(** [__getitem__] is an alias of [find]. *)
Definition getitem (n : nat) (self : pid) (type : string) : M (option pid) :=
  find n self type.

(** *** Plugin.input, Plugin.output, Plugin.update *)

(** [input], given what [self.update()] does. *)
Definition input_with (update : pid → M unit)
    (self : pid) (input : value) (channel : Z) : M unit :=
  log (CInput self input) ;;;
  me <- deref self ;;
  if threaded me then
    q <- get_queue self ;;
    modify self (set_queue (q ++ [input])) ;;;
    _ <- get_event self ;;
    modify self (set_event true)
  else
    update self.

(** [output], given what [input] of a plugin does. *)
Definition output_with (input : pid → value → Z → M unit)
    (self : pid) (output : value) (channel : Z) : M unit :=
  if is_None output then ret tt
  else
    me <- deref self ;;
    if (0 <=? channel)%Z then
      match outputs me !! Z.to_nat channel with
      | Some target => input target output 0%Z
      | None => raise (IndexError "list index out of range")
      end
    else
      for_each (outputs me) (fun output_channel => input output_channel output 0%Z).

(** The run of a [process] body: each of its steps acts on the heap. *)
Fixpoint run_proc (output : pid → value → Z → M unit) (self : pid) (b : proc S) : M value :=
  match b with
  | PReturn v => ret v
  | PRaise e => raise e
  | POutput v channel k => output self v channel ;;; run_proc output self k
  | PSetAttrs a k => modify self (set_attrs a) ;;; run_proc output self k
  end.

(** [self.process(input)] *)
Definition call_process (output : pid → value → Z → M unit)
    (self : pid) (input : value) : M value :=
  log (CProcess self input) ;;;
  me <- deref self ;;
  run_proc output self (process (mro me) (attrs me) input).

Fixpoint update (n : nat) (self : pid) : M unit :=
  match n with
  | O => fun _ => Fuel
  | Datatypes.S n =>
      let output := output_with (input_with (update n)) in
      q <- get_queue self ;;
      match q with
      | [] => ret tt
      | input :: q' =>
          modify self (set_queue q') ;;;
          r <- call_process output self input ;;
          output self r (-1)%Z ;;;
          me <- deref self ;;
          (if relay me then output self input (-1)%Z else ret tt) ;;;
          update n self
      end
  end.

Definition input (n : nat) : pid → value → Z → M unit :=
  input_with (update n).

Definition output (n : nat) : pid → value → Z → M unit :=
  output_with (input n).

(** [__call__] is an alias of [input]. *)
Definition call (n : nat) (self : pid) (inp : value) (channel : Z) : M unit :=
  input n self inp channel.

(** *** Plugin._run

    The loop of the thread of a threaded plugin.  [turn] is one pass of the
    loop: wait for the event, clear it, drain the queue.  There is no other
    thread here to set the event, so that waiting for an event that is not
    set does not end. *)
Definition turn (n : nat) (self : pid) : M unit :=
  ev <- get_event self ;;
  if ev then modify self (set_event false) ;;; update n self
  else fun _ => Fuel.

Fixpoint run (n : nat) (self : pid) : M unit :=
  match n with
  | O => fun _ => Fuel
  | Datatypes.S n => turn n self ;;; run n self
  end.

End Runtime.
End PluginM.

(** * The ChatQuery stage ([plugins/chat_query.py]) *)

Module ChatQueryM.

(** The lazy token sequence [model.generate(..., streaming=True)] returns,
    as the tokens it yields and the attributes it carries once exhausted. *)
Record stream := mkStream {
  stream_id : nat;
  tokens : list string;
  output_text : string;
  kv_cache : value
}.

(** The generation parameters that [process] hands to [generate]. *)
Record generation := mkGeneration {
  g_max_new_tokens : value;
  g_min_new_tokens : value;
  g_do_sample : value;
  g_repetition_penalty : value;
  g_temperature : value;
  g_top_p : value
}.

(** [ChatHistory] and [LocalLM] are imported from [local_llm] and are not
    among the sources: their methods are taken as parameters.  [world] is
    the state of the objects they manage (chat histories, chat entries, the
    model); a method returns its result or the exception it raises, and
    the state it leaves. *)
Class Backend := {
  world : Type;
  (* chat_history.append(role=.., <keyword>=value), returning the entry *)
  append : nat → string → string → value → world → (exn + nat) * world;
  (* chat_history.embed_chat(), returning (embedding, position) *)
  embed_chat : nat → world → (exn + value * value) * world;
  (* chat_history.kv_cache, read and assigned *)
  get_kv_cache : nat → world → value;
  set_kv_cache : nat → value → world → world;
  (* entry.text, read and assigned *)
  get_text : nat → world → string;
  set_text : nat → string → world → world;
  (* model.generate(embedding, streaming=True, kv_cache=.., ..., **kwargs):
     the call as a whole, with the binding of its arguments; a keyword of
     kwargs that repeats one of those given by name makes it raise
     TypeError before the method runs *)
  generate : nat → value → value → generation → gmap string value → world
             → (exn + stream) * world
}.

Section Stage.
Context `{Backend}.

(** The attributes of a ChatQuery instance, with the state of the
    objects they refer to. *)
Record ChatQuery := mkChatQuery {
  model : nat;
  chat_history : nat;
  max_new_tokens : value;
  min_new_tokens : value;
  do_sample : value;
  repetition_penalty : value;
  temperature : value;
  top_p : value;
  objects : world
}.

Definition set_objects (w : world) (self : ChatQuery) : ChatQuery :=
  mkChatQuery (model self) (chat_history self) (max_new_tokens self)
              (min_new_tokens self) (do_sample self) (repetition_penalty self)
              (temperature self) (top_p self) w.

Definition is_str (v : value) : bool :=
  match v with VStr _ => true | _ => false end.
Definition is_dict (v : value) : bool :=
  match v with VDict _ => true | _ => false end.
Definition is_ChatHistory (v : value) : bool :=
  match v with VChatHistory _ => true | _ => false end.

(** A call of a collaborator's method from within [process]: the state
    it leaves is stored, then its exception propagates or the body
    continues with its result. *)
Definition invoke {A} (method : world → (exn + A) * world) (self : ChatQuery)
    (k : A → ChatQuery → proc ChatQuery) : proc ChatQuery :=
  let '(r, w) := method (objects self) in
  let self' := set_objects w self in
  PSetAttrs self'
    match r with
    | inl e => PRaise e
    | inr a => k a self'
    end.

(** Lines 101-103: [for token in output: bot_reply.text += token;
    self.output(token)] *)
Fixpoint stream_tokens (bot_reply : nat) (output : list string) (self : ChatQuery)
    (k : ChatQuery → proc ChatQuery) : proc ChatQuery :=
  match output with
  | [] => k self
  | token :: rest =>
      let w := objects self in
      let self' := set_objects (set_text bot_reply (get_text bot_reply w ++ token) w) self in
      PSetAttrs self'
        (POutput (VStr token) (-1)
           (stream_tokens bot_reply rest self' k))
  end.

(** Lines 83-110, once [chat_history] is chosen. *)
Definition generate_reply (self : ChatQuery) (input : value)
    (kwargs : gmap string value) (history : nat) : proc ChatQuery :=
  invoke (embed_chat history) self (fun '(embedding, position) self =>
  invoke (fun w =>
            generate (model self) embedding (get_kv_cache history w)
              (mkGeneration (max_new_tokens self) (min_new_tokens self)
                 (do_sample self) (repetition_penalty self)
                 (temperature self) (top_p self))
              kwargs w) self (fun output self =>
  if negb (is_ChatHistory input) then
    invoke (append (chat_history self) "bot" "text" (VStr "")) self (fun bot_reply self =>
    stream_tokens bot_reply (tokens output) self (fun self =>
    let w := set_text bot_reply (output_text output) (objects self) in
    let w := set_kv_cache (chat_history self) (kv_cache output) w in
    PSetAttrs (set_objects w self) (PReturn VNone)))
  else
    PReturn (VStream (stream_id output)))).

Definition process (self : ChatQuery) (input : value)
    (kwargs : gmap string value) : proc ChatQuery :=
  if is_str input || is_dict input then
    invoke (append (chat_history self) "user" "msg" input) self (fun _ self =>
    generate_reply self input kwargs (chat_history self))
  else
    match input with
    | VChatHistory history => generate_reply self input kwargs history
    | _ =>
        PRaise (TypeError
          ("LLMQuery plugin expects inputs of type str, dict, or ChatHistory (was "
             ++ type_repr (type_name input) ++ ")"))
    end.

(** The method [process] of the instance's class, as the runtime calls
    it from [update] (no keyword arguments). *)
Definition dispatch (classes : list string) (self : ChatQuery) (input : value)
    : proc ChatQuery :=
  process self input ∅.

End Stage.
End ChatQueryM.

(** * What the calls amount to

    The definitions below describe the effect of the runtime in the words of
    its documentation: which plugins a search visits, and which deliveries a
    call makes.  The theorems compare them with the code above. *)

(** [isinstance(x, Plugin)] *)
Definition is_plugin (v : value) : bool :=
  match v with VPlugin _ => true | _ => false end.

Section Description.
Context {S : Type}.
Variable process : list string → S → value → proc S.
Variable callback_attrs : value → S.

Implicit Types (σ : state S) (h : gmap pid (Plugin S)) (nd me m : Plugin S).

(** *** The graph *)

(** [q] is downstream of [p]: reachable along output edges. *)
Inductive reaches h : pid → pid → Prop :=
  | reaches_here p : reaches h p p
  | reaches_output p me q r :
      h !! p = Some me → q ∈ outputs me → reaches h q r → reaches h p r.

(** The plugins downstream of [p], depth first: [p] itself, then what lies
    behind each output edge, in list order (to depth [n]). *)
Fixpoint preorder (n : nat) h (p : pid) : list pid :=
  match n with
  | O => []
  | Datatypes.S n =>
      p :: match h !! p with
           | Some me => flat_map (preorder n h) (outputs me)
           | None => []
           end
  end.

(** [isinstance(p, type)] for the object at [p]. *)
Definition has_type h (type : string) (p : pid) : bool :=
  match h !! p with
  | Some me => PluginM.isinstance me type
  | None => false
  end.

(** The output graph has no cycle: every edge leads to a plugin of the
    heap of smaller rank. *)
Definition acyclic_by (rank : pid → nat) h : Prop :=
  ∀ p me q, h !! p = Some me → q ∈ outputs me →
            is_Some (h !! q) ∧ (rank q < rank p)%nat.

(** The heap with the edge [src → dst] added. *)
Definition add_edge (src dst : pid) h : gmap pid (Plugin S) :=
  alter (fun nd => PluginM.set_outputs (outputs nd ++ [dst]) nd) src h.

(** The plugin [Callback(f)] creates. *)
Definition wrapper (f : value) : Plugin S :=
  PluginM.new_plugin ["Callback"; "Plugin"; "object"] (callback_attrs f) false true.

(** The message of the TypeError of [add]. *)
Definition add_message me (plugin : value) : string :=
  type_repr (PluginM.class_name me)
    ++ ".add() expects either a Plugin instance or a callable function (was "
    ++ type_repr (type_name plugin) ++ ")".

(** *** Deliveries *)

(** The items waiting in a plugin's queue. *)
Definition mailbox nd : list value := default [] (queue nd).

(** [queue.put(v); event.set()] on a plugin. *)
Definition enqueue (v : value) nd : Plugin S :=
  PluginM.set_event true (PluginM.set_queue (mailbox nd ++ [v]) nd).

(** A plugin that has been handed the values [vs], in this order. *)
Definition received (vs : list value) nd : Plugin S :=
  match vs with
  | [] => nd
  | _ => PluginM.set_event true (PluginM.set_queue (mailbox nd ++ vs) nd)
  end.

(** The heap once the deliveries of a list of calls have been made. *)
Definition deliver h (c : call) : gmap pid (Plugin S) :=
  match c with
  | CInput target v => alter (enqueue v) target h
  | CProcess _ _ => h
  end.

Definition replay (cs : list call) h : gmap pid (Plugin S) :=
  foldl deliver h cs.

(** The state once the calls [cs] are made, and once in addition the
    plugin [self] has become [m]. *)
Definition perform (cs : list call) σ : state S :=
  mkState (replay cs (heap σ)) (calls σ ++ cs).

Definition settle (self : pid) m (cs : list call) σ : state S :=
  mkState (<[self := m]> (replay cs (heap σ))) (calls σ ++ cs).

(** The values a list of calls hands to [p.input]. *)
Definition inbox (p : pid) (cs : list call) : list value :=
  omap (fun c => match c with
                 | CInput target v => if decide (target = p) then Some v else None
                 | CProcess _ _ => None
                 end) cs.

(** The items a list of calls hands to [p.process]. *)
Definition processed (p : pid) (cs : list call) : list value :=
  omap (fun c => match c with
                 | CProcess self v => if decide (self = p) then Some v else None
                 | CInput _ _ => None
                 end) cs.

(** A plugin that was created with threaded=True: [input] on it returns. *)
Definition has_mailbox h (p : pid) : Prop :=
  ∃ nd, h !! p = Some nd ∧ threaded nd = true
        ∧ is_Some (queue nd) ∧ is_Some (event nd).

(** The [input] calls of [output(v, channel)] on a plugin with outputs
    [outs]: none for [None], one for a channel, one per output otherwise. *)
Definition emit (outs : list pid) (v : value) (channel : Z) : list call :=
  if is_None v then []
  else if (0 <=? channel)%Z then
    match outs !! Z.to_nat channel with
    | Some target => [CInput target v]
    | None => []
    end
  else map (fun target => CInput target v) outs.

(** The channel of [output(v, channel)] addresses an output. *)
Definition channel_ok (outs : list pid) (v : value) (channel : Z) : Prop :=
  is_None v = false → (0 <= channel)%Z → (Z.to_nat channel < length outs)%nat.

(** *** A run of [process] *)

(** The [input] calls made by the [self.output] calls of a [process] run,
    how it ends, and the attributes it leaves. *)
Fixpoint proc_calls (outs : list pid) (b : proc S) : list call :=
  match b with
  | PReturn _ | PRaise _ => []
  | POutput v channel k => emit outs v channel ++ proc_calls outs k
  | PSetAttrs _ k => proc_calls outs k
  end.

Fixpoint proc_result (b : proc S) : exn + value :=
  match b with
  | PReturn v => inr v
  | PRaise e => inl e
  | POutput _ _ k | PSetAttrs _ k => proc_result k
  end.

Definition returned (b : proc S) : value :=
  match proc_result b with inr v => v | inl _ => VNone end.

Definition raises_TypeError (b : proc S) : Prop :=
  ∃ msg, proc_result b = inl (TypeError msg).

Fixpoint proc_attrs (a : S) (b : proc S) : S :=
  match b with
  | PReturn _ | PRaise _ => a
  | POutput _ _ k => proc_attrs a k
  | PSetAttrs a' k => proc_attrs a' k
  end.

(** A [process] run that returns, and whose [self.output] calls address
    existing channels. *)
Fixpoint proc_ok (outs : list pid) (b : proc S) : Prop :=
  match b with
  | PReturn _ => True
  | PRaise _ => False
  | POutput v channel k => channel_ok outs v channel ∧ proc_ok outs k
  | PSetAttrs _ k => proc_ok outs k
  end.

(** *** Draining a queue *)

(** As documented: each item in turn, in queue order, is handed to
    [process]; the result goes to the outputs; then, if [relay] is set,
    the item itself. *)
Fixpoint drain (self : pid) (classes : list string) (relay : bool)
    (outs : list pid) (a : S) (items : list value) : list call :=
  match items with
  | [] => []
  | x :: rest =>
      let b := process classes a x in
      CProcess self x
        :: proc_calls outs b
        ++ emit outs (returned b) (-1)
        ++ (if relay then emit outs x (-1) else [])
        ++ drain self classes relay outs (proc_attrs a b) rest
  end.

(** The attributes of the stage once the items are processed. *)
Fixpoint drain_attrs (classes : list string) (a : S) (items : list value) : S :=
  match items with
  | [] => a
  | x :: rest => drain_attrs classes (proc_attrs a (process classes a x)) rest
  end.

(** [process] returns on each of the items. *)
Fixpoint drain_ok (classes : list string) (outs : list pid) (a : S)
    (items : list value) : Prop :=
  match items with
  | [] => True
  | x :: rest =>
      proc_ok outs (process classes a x)
      ∧ drain_ok classes outs (proc_attrs a (process classes a x)) rest
  end.

(** "When [process] returns None for an item, no delivery for that item
    occurs to any output", for the item waiting in the queue of [self]. *)
Definition silent_on_None (n : nat) (self : pid) σ : Prop :=
  ∀ me item σ',
    heap σ !! self = Some me →
    queue me = Some [item] →
    process (mro me) (attrs me) item = PReturn VNone →
    PluginM.update process n self σ = Ok tt σ' →
    ∀ t, inbox t (calls σ') = inbox t (calls σ).

End Description.

Section ChatQueryDescription.
Context `{ChatQueryM.Backend}.

(** The inputs [ChatQuery.process] is written for. *)
Definition accepted (input : value) : bool :=
  ChatQueryM.is_str input || ChatQueryM.is_dict input
  || ChatQueryM.is_ChatHistory input.

(** The exception of line 81. *)
Definition type_error (input : value) : exn :=
  TypeError ("LLMQuery plugin expects inputs of type str, dict, or ChatHistory (was "
               ++ type_repr (type_name input) ++ ")").

End ChatQueryDescription.

(** * Invariants and compositions

    What the operations keep, and what sequences of them amount to. *)

Section Invariants.
Context {S : Type}.
Variable process : list string → S → value → proc S.
Variable callback_attrs : value → S.

Implicit Types (σ : state S) (h : gmap pid (Plugin S)) (nd me m : Plugin S).

(** Two states of a plugin that differ at most in the contents of the
    queue, the state of the event and the attributes of the stage. *)
Definition same_plugin nd nd' : Prop :=
  mro nd = mro nd' ∧ relay nd = relay nd' ∧ threaded nd = threaded nd'
  ∧ outputs nd = outputs nd'
  ∧ (is_Some (queue nd) ↔ is_Some (queue nd'))
  ∧ (is_Some (event nd) ↔ is_Some (event nd')).

(** Two heaps with the same plugins and the same edges. *)
Definition same_graph h h' : Prop :=
  ∀ p, match h !! p, h' !! p with
       | Some nd, Some nd' => same_plugin nd nd'
       | None, None => True
       | _, _ => False
       end.

(** A computation that, whether it returns or raises, leaves the graph as
    it is and only adds to the call log. *)
Definition steady {A} (c : M S A) : Prop :=
  ∀ σ, match c σ with
       | Ok _ σ' | Exc _ σ' =>
           same_graph (heap σ) (heap σ') ∧ calls σ `prefix_of` calls σ'
       | Fuel | Wrong => True
       end.

(** A plugin as [__init__] leaves it: with a queue and an event if it is
    threaded, with neither if it is not. *)
Definition consistent nd : Prop :=
  if threaded nd then is_Some (queue nd) ∧ is_Some (event nd)
  else queue nd = None ∧ event nd = None.

Definition consistent_heap h : Prop :=
  ∀ p nd, h !! p = Some nd → consistent nd.

(** [P] holds of the state a computation ends in, if it returns or raises. *)
Definition ends_in {A} (c : M S A) σ (P : state S → Prop) : Prop :=
  match c σ with
  | Ok _ σ' | Exc _ σ' => P σ'
  | Fuel | Wrong => True
  end.

(** A plugin whose outputs have at most been extended. *)
Definition extended nd nd' : Prop :=
  mro nd = mro nd' ∧ relay nd = relay nd' ∧ threaded nd = threaded nd'
  ∧ queue nd = queue nd' ∧ event nd = event nd' ∧ attrs nd = attrs nd'
  ∧ outputs nd `prefix_of` outputs nd'
  ∧ (length (outputs nd') <= Datatypes.S (length (outputs nd)))%nat.

(** A heap that has grown: the plugins are there, with their edges, and
    what is new is a [Callback] with at most the one edge given to it. *)
Definition grown h h' : Prop :=
  (∀ p nd, h !! p = Some nd → ∃ nd', h' !! p = Some nd' ∧ extended nd nd')
  ∧ (∀ p nd', h' !! p = Some nd' → h !! p = None →
       ∃ f, extended (wrapper callback_attrs f) nd').

(** [nd'] is [nd] with [dst] appended to its outputs. *)
Definition appended nd (dst : pid) nd' : Prop :=
  mro nd' = mro nd ∧ relay nd' = relay nd ∧ threaded nd' = threaded nd
  ∧ queue nd' = queue nd ∧ event nd' = event nd ∧ attrs nd' = attrs nd
  ∧ outputs nd' = outputs nd ++ [dst].

(** A plugin as [__init__] leaves it: no outputs, and an empty queue and a
    cleared event if it is threaded, neither if it is not. *)
Definition initial (classes : list string) (a : S) (relaying threading : bool) nd
    : Prop :=
  mro nd = classes ∧ relay nd = relaying ∧ threaded nd = threading
  ∧ attrs nd = a ∧ outputs nd = []
  ∧ queue nd = (if threading then Some [] else None)
  ∧ event nd = (if threading then Some false else None).

(** The wrapper that [add] makes of a callable (see [PluginM.Callback]), as
    its constructor leaves it. *)
Definition fresh_callback (f : value) nd : Prop :=
  initial ["Callback"; "Plugin"; "object"] (callback_attrs f) false true nd.

(** Successive [input] calls on a plugin. *)
Definition feed (n : nat) (self : pid) (items : list value) : M S unit :=
  PluginM.for_each items (fun x => PluginM.input process n self x 0).

(** The [self.output] calls of a [process] run address existing channels. *)
Fixpoint channels_ok (outs : list pid) (b : proc S) : Prop :=
  match b with
  | PReturn _ | PRaise _ => True
  | POutput v channel k => channel_ok outs v channel ∧ channels_ok outs k
  | PSetAttrs _ k => channels_ok outs k
  end.

(** [p] lies on a cycle of output edges. *)
Definition on_cycle h (p : pid) : Prop :=
  ∃ me q, h !! p = Some me ∧ q ∈ outputs me ∧ reaches h q p.

(** Every edge leads to a plugin of the heap. *)
Definition closed h : Prop :=
  ∀ p me q, h !! p = Some me → q ∈ outputs me → is_Some (h !! q).

End Invariants.

Section ChatQueryStreams.
Context `{ChatQueryM.Backend}.

(** The state of the backend once the tokens are added, one after the
    other, to the text of the entry [bot_reply]. *)
Definition add_tokens (bot_reply : nat) (tokens : list string)
    (w : ChatQueryM.world) : ChatQueryM.world :=
  foldl (fun w token =>
           ChatQueryM.set_text bot_reply (ChatQueryM.get_text bot_reply w ++ token) w)
        w tokens.

(** The generation parameters of a ChatQuery instance. *)
Definition generation_of (self : ChatQueryM.ChatQuery) : ChatQueryM.generation :=
  ChatQueryM.mkGeneration
    (ChatQueryM.max_new_tokens self) (ChatQueryM.min_new_tokens self)
    (ChatQueryM.do_sample self) (ChatQueryM.repetition_penalty self)
    (ChatQueryM.temperature self) (ChatQueryM.top_p self).

(** A call that does not raise a TypeError; [k] is asked of its result
    and of the state it leaves. *)
Definition no_TypeError_from {A} (r : (exn + A) * ChatQueryM.world)
    (k : A → ChatQueryM.world → Prop) : Prop :=
  match r.1 with
  | inl e => is_TypeError e = false
  | inr a => k a r.2
  end.

(** The calls of lines 83-108 on the chat history and on the model, one
    after the other from the state [w]: none raises a TypeError. *)
Definition reply_raises_no_TypeError (self : ChatQueryM.ChatQuery) (input : value)
    (kwargs : gmap string value) (history : nat) (w : ChatQueryM.world) : Prop :=
  no_TypeError_from (ChatQueryM.embed_chat history w) (fun '(embedding, _) w =>
  no_TypeError_from
    (ChatQueryM.generate (ChatQueryM.model self) embedding
       (ChatQueryM.get_kv_cache history w) (generation_of self) kwargs w)
    (fun _ w =>
  if negb (ChatQueryM.is_ChatHistory input) then
    no_TypeError_from
      (ChatQueryM.append (ChatQueryM.chat_history self) "bot" "text" (VStr "") w)
      (fun _ _ => True)
  else True)).

(** The calls that [process(input, **kwargs)] makes on the chat history and
    on the model of [self], in the state they are made in: none raises a
    TypeError. *)
Definition calls_raise_no_TypeError (self : ChatQueryM.ChatQuery) (input : value)
    (kwargs : gmap string value) : Prop :=
  if ChatQueryM.is_str input || ChatQueryM.is_dict input then
    no_TypeError_from
      (ChatQueryM.append (ChatQueryM.chat_history self) "user" "msg" input
         (ChatQueryM.objects self))
      (fun _ w =>
         reply_raises_no_TypeError self input kwargs (ChatQueryM.chat_history self) w)
  else
    match input with
    | VChatHistory history =>
        reply_raises_no_TypeError self input kwargs history (ChatQueryM.objects self)
    | _ => True
    end.

(** [process(input, **kwargs)] raises a TypeError exactly when [input] is
    of none of the three types, and then leaves the attributes of the
    plugin, with the chat history and the model, as they were. *)
Definition type_check_exact (self : ChatQueryM.ChatQuery) (input : value)
    (kwargs : gmap string value) : Prop :=
  (raises_TypeError (ChatQueryM.process self input kwargs) ↔ accepted input = false)
  ∧ (raises_TypeError (ChatQueryM.process self input kwargs) →
     proc_attrs self (ChatQueryM.process self input kwargs) = self).

End ChatQueryStreams.

(** * A small pipeline

    Concrete plugins and a scripted backend, on which the statements below
    are instantiated. *)

Module Examples.

(** Stages without attributes of their own: one returns its input, one
    returns [None]. *)
Definition echo (classes : list string) (a : unit) (input : value) : proc unit :=
  PReturn input.

Definition mute (classes : list string) (a : unit) (input : value) : proc unit :=
  PReturn VNone.

Definition no_attrs (f : value) : unit := tt.

(** [source → filter → sink] and [source → sink]; two items wait in the
    queue of the source, which relays. *)
Definition source : Plugin unit :=
  mkPlugin ["Source"; "Plugin"; "object"] true true [1; 2]%nat
           (Some [VInt 1; VInt 2]) (Some false) tt.

Definition filter : Plugin unit :=
  mkPlugin ["Filter"; "Plugin"; "object"] false true [2]%nat
           (Some []) (Some false) tt.

Definition sink : Plugin unit :=
  mkPlugin ["Sink"; "Plugin"; "object"] false true [] (Some []) (Some false) tt.

Definition pipeline : state unit :=
  mkState {[ 0%nat := source; 1%nat := filter; 2%nat := sink ]} [].

Definition depth (p : pid) : nat := (2 - p)%nat.

(** A plugin created with threaded=False. *)
Definition direct : Plugin unit :=
  PluginM.new_plugin ["Direct"; "Plugin"; "object"] tt false false.

Definition inline : state unit := mkState {[ 0%nat := direct ]} [].

(** One item waits in the queue of a plugin with one output, with and
    without relay. *)
Definition waiting (relay : bool) : state unit :=
  mkState {[ 0%nat := mkPlugin ["Stage"; "Plugin"; "object"] relay true [1]%nat
                               (Some [VInt 7]) (Some false) tt;
             1%nat := sink ]} [].

(** A backend that answers every prompt with the same two tokens; its
    state is the list of the texts of the chat entries. *)
Definition scripted : ChatQueryM.Backend :=
  {| ChatQueryM.world := list string;
     ChatQueryM.append := fun _ _ _ _ w => (inr (length w), w ++ [""]);
     ChatQueryM.embed_chat := fun _ w => (inr (VList [], VInt 0), w);
     ChatQueryM.get_kv_cache := fun _ _ => VNone;
     ChatQueryM.set_kv_cache := fun _ _ w => w;
     ChatQueryM.get_text := fun e w => default "" (w !! e);
     ChatQueryM.set_text := fun e s w => <[e := s]> w;
     ChatQueryM.generate := fun _ _ _ _ _ w =>
       (inr (ChatQueryM.mkStream 0 ["Hi"; "!"] "Hi!" VNone), w) |}.

Definition query : @ChatQueryM.ChatQuery scripted :=
  ChatQueryM.mkChatQuery (H := scripted) 0 0 (VInt 128) (VInt (-1)) (VBool false)
    (VFloat 1) (VFloat (7 # 10)) (VFloat (95 # 100)) [].

End Examples.

(** * More plugins

    A stage that fails, a graph with an output that is not threaded, and a
    graph with a cycle. *)

Module MoreExamples.

(** A stage that outputs its input on channel 0 and then raises. *)
Definition failing (classes : list string) (a : unit) (input : value) : proc unit :=
  POutput input 0 (PRaise (ValueError "bad item")).

(** [hub → first, direct, last], where [direct] is not threaded. *)
Definition hub : Plugin unit :=
  mkPlugin ["Hub"; "Plugin"; "object"] false true [1; 2; 3]%nat
           (Some []) (Some false) tt.

Definition mixed : state unit :=
  mkState {[ 0%nat := hub; 1%nat := Examples.sink; 2%nat := Examples.direct;
             3%nat := Examples.sink ]} [].

(** [ping → pong → ping] *)
Definition ping : Plugin unit :=
  mkPlugin ["Ping"; "Plugin"; "object"] false true [1]%nat (Some []) (Some false) tt.

Definition pong : Plugin unit :=
  mkPlugin ["Pong"; "Plugin"; "object"] false true [0]%nat (Some []) (Some false) tt.

Definition ring : state unit := mkState {[ 0%nat := ping; 1%nat := pong ]} [].

(** A ChatQuery plugin with one prompt in its queue, and a plugin that
    listens to it. *)
Definition assistant : Plugin (@ChatQueryM.ChatQuery Examples.scripted) :=
  mkPlugin ["ChatQuery"; "Plugin"; "object"] false true [1]%nat
           (Some [VStr "Hello"]) (Some true) Examples.query.

Definition listener : Plugin (@ChatQueryM.ChatQuery Examples.scripted) :=
  mkPlugin ["Sink"; "Plugin"; "object"] false true [] (Some []) (Some false)
           Examples.query.

Definition chat : state (@ChatQueryM.ChatQuery Examples.scripted) :=
  mkState {[ 0%nat := assistant; 1%nat := listener ]} [].

(** [relaying → direct, sink], where [direct] is not threaded; two items
    wait in the queue of [relaying], which relays. *)
Definition relaying : Plugin unit :=
  mkPlugin ["Relaying"; "Plugin"; "object"] true true [1; 2]%nat
           (Some [VInt 7; VInt 8]) (Some false) tt.

Definition blocked : state unit :=
  mkState {[ 0%nat := relaying; 1%nat := Examples.direct; 2%nat := Examples.sink ]} [].

(** The scripted backend with the argument binding of the [generate] call:
    [process] passes [streaming=True] by name, so that a [streaming] among
    the keyword arguments it forwards makes the call raise TypeError. *)
Definition strict : ChatQueryM.Backend :=
  {| ChatQueryM.world := list string;
     ChatQueryM.append := fun _ _ _ _ w => (inr (length w), w ++ [""]);
     ChatQueryM.embed_chat := fun _ w => (inr (VList [], VInt 0), w);
     ChatQueryM.get_kv_cache := fun _ _ => VNone;
     ChatQueryM.set_kv_cache := fun _ _ w => w;
     ChatQueryM.get_text := fun e w => default "" (w !! e);
     ChatQueryM.set_text := fun e s w => <[e := s]> w;
     ChatQueryM.generate := fun _ _ _ _ kwargs w =>
       match kwargs !! "streaming" with
       | Some _ =>
           (inl (TypeError
                   "generate() got multiple values for keyword argument 'streaming'"),
            w)
       | None => (inr (ChatQueryM.mkStream 0 ["Hi"; "!"] "Hi!" VNone), w)
       end |}.

Definition strict_query : @ChatQueryM.ChatQuery strict :=
  ChatQueryM.mkChatQuery (H := strict) 0 0 (VInt 128) (VInt (-1)) (VBool false)
    (VFloat 1) (VFloat (7 # 10)) (VFloat (95 # 100)) [].

End MoreExamples.

(** * Properties of the runtime *)

Section Facts.
Context {S : Type}.
Variable process : list string → S → value → proc S.
Variable callback_attrs : value → S.

Implicit Types (σ : state S) (h : gmap pid (Plugin S)) (nd me m : Plugin S).

#[local] Abbreviation input := (PluginM.input process).
#[local] Abbreviation output := (PluginM.output process).
#[local] Abbreviation update := (PluginM.update process).
#[local] Abbreviation add := (PluginM.add callback_attrs).

(** ** The monad and attribute access *)

Lemma bind_ok {A B} (c : M S A) (f : A → M S B) σ a σ' :
  c σ = Ok a σ' → bind c f σ = f a σ'.
Proof. unfold bind. by intros ->. Qed.

Lemma bind_exc {A B} (c : M S A) (f : A → M S B) σ e σ' :
  c σ = Exc e σ' → bind c f σ = Exc e σ'.
Proof. unfold bind. by intros ->. Qed.

Lemma deref_ok p nd σ : heap σ !! p = Some nd → PluginM.deref p σ = Ok nd σ.
Proof. unfold PluginM.deref. by intros ->. Qed.

Lemma modify_ok p f nd σ :
  heap σ !! p = Some nd →
  PluginM.modify p f σ = Ok tt (mkState (<[p := f nd]> (heap σ)) (calls σ)).
Proof. unfold PluginM.modify. by intros ->. Qed.

Lemma get_queue_ok p nd q σ :
  heap σ !! p = Some nd → queue nd = Some q → PluginM.get_queue p σ = Ok q σ.
Proof.
  intros Hp Hq. unfold PluginM.get_queue.
  rewrite (bind_ok _ _ _ _ _ (deref_ok _ _ _ Hp)). by rewrite Hq.
Qed.

Lemma get_queue_missing p nd σ :
  heap σ !! p = Some nd → queue nd = None →
  PluginM.get_queue p σ = Exc (AttributeError (PluginM.class_name nd) "queue") σ.
Proof.
  intros Hp Hq. unfold PluginM.get_queue.
  rewrite (bind_ok _ _ _ _ _ (deref_ok _ _ _ Hp)). by rewrite Hq.
Qed.

Lemma update_no_queue n self me σ :
  heap σ !! self = Some me → queue me = None →
  update (Datatypes.S n) self σ
  = Exc (AttributeError (PluginM.class_name me) "queue") σ.
Proof.
  intros Hp Hq. simpl.
  by rewrite (bind_exc _ _ _ _ _ (get_queue_missing _ _ _ Hp Hq)).
Qed.

Lemma fresh_heap σ : heap σ !! fresh (dom (heap σ)) = None.
Proof. apply not_elem_of_dom, is_fresh. Qed.

Lemma fresh_not_self self me σ :
  heap σ !! self = Some me → fresh (dom (heap σ)) ≠ self.
Proof.
  intros Hself Heq. pose proof (fresh_heap σ) as Hn. rewrite Heq in Hn. congruence.
Qed.

Lemma set_attrs_same m : PluginM.set_attrs (attrs m) m = m.
Proof. by destruct m. Qed.

(** ** input *)

(** C9. The channel argument of [input] (and of its alias [__call__]) has
    no influence on what the call does: with any two channels the outcome,
    the heap and the call log are the same. *)
Theorem input_ignores_channel (n : nat) (self : pid) (item : value) (c1 c2 : Z) σ :
  input n self item c1 σ = input n self item c2 σ
  ∧ PluginM.call process n self item c1 σ = PluginM.call process n self item c2 σ.
Proof. split; reflexivity. Qed.

Lemma init_not_threaded (classes : list string) (a : S) (relay : bool) σ :
  ∃ p σ' me, PluginM.init classes a relay false σ = Ok p σ'
             ∧ heap σ' !! p = Some me
             ∧ threaded me = false ∧ queue me = None ∧ event me = None.
Proof.
  eexists _, _, _. split; [reflexivity|]. simpl. split; [apply lookup_insert_eq|done].
Qed.

(** C1. On a plugin created with threaded=False, [input(item)] does not
    process the item: [update] reads [self.queue], which [__init__] did
    not create, and the AttributeError propagates; [process] is not
    called and nothing is delivered. *)
Theorem input_not_threaded_raises (n : nat) (self : pid) (item : value)
    (channel : Z) σ me :
  heap σ !! self = Some me →
  threaded me = false →
  queue me = None →
  input (Datatypes.S n) self item channel σ
  = Exc (AttributeError (PluginM.class_name me) "queue")
        (mkState (heap σ) (calls σ ++ [CInput self item])).
Proof.
  intros Hp Ht Hq. unfold PluginM.input, PluginM.input_with.
  unfold bind at 1. unfold PluginM.log.
  erewrite bind_ok; [|by apply deref_ok]. rewrite Ht.
  by apply update_no_queue.
Qed.

(** ** add *)

Lemma append_output_ok p q nd σ :
  heap σ !! p = Some nd →
  PluginM.append_output p q σ = Ok tt (mkState (add_edge p q (heap σ)) (calls σ)).
Proof.
  intros Hp. unfold PluginM.append_output. rewrite (modify_ok _ _ _ _ Hp).
  do 2 f_equal. unfold add_edge. apply map_eq. intros i.
  destruct (decide (p = i)) as [->|Hne].
  - by rewrite lookup_insert_eq, lookup_alter_eq, Hp.
  - by rewrite lookup_insert_ne, lookup_alter_ne.
Qed.

Lemma add_edge_lookup src dst h :
  add_edge src dst h !! src
  = (fun nd => PluginM.set_outputs (outputs nd ++ [dst]) nd) <$> h !! src.
Proof. unfold add_edge. by rewrite lookup_alter_eq. Qed.

Lemma add_edge_lookup_ne src dst h p :
  p ≠ src → add_edge src dst h !! p = h !! p.
Proof. intros Hne. unfold add_edge. by rewrite lookup_alter_ne. Qed.

(** [add] once [self] is looked up: the plugin the edge is made with, then
    the edge. *)
Lemma add_unfold self me plugin mode σ :
  heap σ !! self = Some me →
  add self plugin mode σ =
  bind (match plugin with
        | VPlugin q => _ <- PluginM.deref q ;; ret q
        | _ =>
            if callable plugin then PluginM.Callback callback_attrs plugin
            else raise (TypeError (add_message me plugin))
        end)
    (fun target =>
      (if String.eqb mode "output" then PluginM.append_output self target
       else if String.eqb mode "input" then PluginM.append_output target self
       else raise (ValueError "mode should either be 'input' or 'output'")) ;;;
      ret self) σ.
Proof.
  intros Hself. unfold PluginM.add.
  rewrite (bind_ok _ _ _ _ _ (deref_ok _ _ _ Hself)). reflexivity.
Qed.

Lemma add_plugin_output self me q σ :
  heap σ !! self = Some me → is_Some (heap σ !! q) →
  add self (VPlugin q) "output" σ
  = Ok self (mkState (add_edge self q (heap σ)) (calls σ)).
Proof.
  intros Hself [nq Hq]. rewrite (add_unfold _ _ _ _ _ Hself).
  erewrite bind_ok; [|by erewrite bind_ok; [|by apply deref_ok]].
  simpl. by erewrite bind_ok; [|by eapply append_output_ok].
Qed.

Lemma add_plugin_input self me q σ :
  heap σ !! self = Some me → is_Some (heap σ !! q) →
  add self (VPlugin q) "input" σ
  = Ok self (mkState (add_edge q self (heap σ)) (calls σ)).
Proof.
  intros Hself [nq Hq]. rewrite (add_unfold _ _ _ _ _ Hself).
  erewrite bind_ok; [|by erewrite bind_ok; [|by apply deref_ok]].
  simpl. by erewrite bind_ok; [|by eapply append_output_ok].
Qed.

Lemma add_callable_output self me f σ :
  heap σ !! self = Some me → callable f = true →
  add self f "output" σ
  = Ok self (mkState (add_edge self (fresh (dom (heap σ)))
                        (<[fresh (dom (heap σ)) := wrapper callback_attrs f]> (heap σ))) (calls σ)).
Proof.
  intros Hself Hf. rewrite (add_unfold _ _ _ _ _ Hself).
  destruct f; try discriminate Hf.
  unfold bind at 1, PluginM.Callback, PluginM.init.
  cbn [callable String.eqb Ascii.eqb Bool.eqb].
  erewrite bind_ok;
    [|eapply append_output_ok; simpl; rewrite lookup_insert_ne;
      [exact Hself|by eapply fresh_not_self]].
  reflexivity.
Qed.

Lemma add_callable_input self me f σ :
  heap σ !! self = Some me → callable f = true →
  add self f "input" σ
  = Ok self (mkState (add_edge (fresh (dom (heap σ))) self
                        (<[fresh (dom (heap σ)) := wrapper callback_attrs f]> (heap σ))) (calls σ)).
Proof.
  intros Hself Hf. rewrite (add_unfold _ _ _ _ _ Hself).
  destruct f; try discriminate Hf.
  unfold bind at 1, PluginM.Callback, PluginM.init.
  cbn [callable String.eqb Ascii.eqb Bool.eqb].
  erewrite bind_ok; [|eapply append_output_ok; simpl; apply lookup_insert_eq].
  reflexivity.
Qed.

Lemma add_edge_appended src dst h nd :
  h !! src = Some nd →
  ∃ nd', add_edge src dst h !! src = Some nd' ∧ appended nd dst nd'.
Proof.
  intros Hsrc. eexists. split; [by rewrite add_edge_lookup, Hsrc|].
  by repeat split.
Qed.

Lemma wrapper_fresh_callback (f : value) :
  fresh_callback callback_attrs f (wrapper callback_attrs f).
Proof. by repeat split. Qed.

(** C8. [add(other, 'output')] returns the receiver and leaves it with
    [other] appended to its outputs; [add(other, 'input')] returns the
    receiver and leaves [other] with the receiver appended to its outputs.
    A bare callable is first wrapped in a new [Callback] (at an identity
    that was free, without outputs of its own), which takes the place of
    [other].  The plugin whose outputs grow keeps its classes, flags,
    queue, event and attributes, every other plugin is as it was, and so
    is the call log. *)
Theorem add_connects (self : pid) me σ :
  heap σ !! self = Some me →
  (∀ q nq, heap σ !! q = Some nq →
     (∃ σ' me', add self (VPlugin q) "output" σ = Ok self σ'
                ∧ calls σ' = calls σ
                ∧ heap σ' !! self = Some me' ∧ appended me q me'
                ∧ ∀ p, p ≠ self → heap σ' !! p = heap σ !! p)
     ∧ (∃ σ' nq', add self (VPlugin q) "input" σ = Ok self σ'
                  ∧ calls σ' = calls σ
                  ∧ heap σ' !! q = Some nq' ∧ appended nq self nq'
                  ∧ ∀ p, p ≠ q → heap σ' !! p = heap σ !! p))
  ∧ (∀ f, callable f = true →
     ∃ c, heap σ !! c = None
     ∧ (∃ σ' me' w, add self f "output" σ = Ok self σ'
                    ∧ calls σ' = calls σ
                    ∧ heap σ' !! self = Some me' ∧ appended me c me'
                    ∧ heap σ' !! c = Some w ∧ fresh_callback callback_attrs f w
                    ∧ ∀ p, p ≠ self → p ≠ c → heap σ' !! p = heap σ !! p)
     ∧ (∃ σ' w w', add self f "input" σ = Ok self σ'
                   ∧ calls σ' = calls σ
                   ∧ fresh_callback callback_attrs f w
                   ∧ heap σ' !! c = Some w' ∧ appended w self w'
                   ∧ ∀ p, p ≠ c → heap σ' !! p = heap σ !! p)).
Proof.
  intros Hself. split.
  - intros q nq Hq. split.
    + destruct (add_edge_appended self q _ _ Hself) as (me' & Hme' & Happ).
      eexists _, me'. split; [by eapply add_plugin_output|].
      split_and!; try done. intros p Hp. by apply add_edge_lookup_ne.
    + destruct (add_edge_appended q self _ _ Hq) as (nq' & Hnq' & Happ).
      eexists _, nq'. split; [by eapply add_plugin_input|].
      split_and!; try done. intros p Hp. by apply add_edge_lookup_ne.
  - intros f Hf. exists (fresh (dom (heap σ))).
    pose proof (fresh_heap σ) as Hfresh.
    assert (Hne : self ≠ fresh (dom (heap σ))) by (intros ->; congruence).
    split; [done|]. split.
    + destruct (add_edge_appended self (fresh (dom (heap σ)))
                  (<[fresh (dom (heap σ)) := wrapper callback_attrs f]> (heap σ)) me)
        as (me' & Hme' & Happ); [by rewrite lookup_insert_ne|].
      eexists _, me', (wrapper callback_attrs f).
      split; [by eapply add_callable_output|].
      cbn [heap calls]. split; [done|]. split; [exact Hme'|]. split; [exact Happ|].
      split; [rewrite add_edge_lookup_ne by done; apply lookup_insert_eq|].
      split; [apply wrapper_fresh_callback|].
      intros p Hp Hc. rewrite add_edge_lookup_ne by done.
      by rewrite lookup_insert_ne.
    + destruct (add_edge_appended (fresh (dom (heap σ))) self
                  (<[fresh (dom (heap σ)) := wrapper callback_attrs f]> (heap σ))
                  (wrapper callback_attrs f))
        as (w' & Hw' & Happ); [apply lookup_insert_eq|].
      eexists _, (wrapper callback_attrs f), w'.
      split; [by eapply add_callable_input|].
      cbn [heap calls]. split; [done|]. split; [apply wrapper_fresh_callback|].
      split; [exact Hw'|]. split; [exact Happ|].
      intros p Hp. rewrite add_edge_lookup_ne by done.
      by rewrite lookup_insert_ne.
Qed.

Lemma mode_eqb_false (mode s : string) : mode ≠ s → String.eqb mode s = false.
Proof. intros Hne. by apply String.eqb_neq. Qed.

(** C5. [add] fails exactly in two cases.  If [other] is neither a plugin
    nor callable it raises a TypeError whose message names the type of
    [other], and the state is the one before the call.  Otherwise, if
    [mode] is neither 'output' nor 'input', it raises a ValueError; every
    plugin of the heap is as before, and a plugin that is new (the
    [Callback] made for a callable before the mode is looked at) has no
    output.  In all other cases it returns the receiver. *)
Theorem add_rejects (self : pid) me (plugin : value) (mode : string) σ :
  heap σ !! self = Some me →
  (∀ q, plugin = VPlugin q → is_Some (heap σ !! q)) →
  (is_plugin plugin = false → callable plugin = false →
     add self plugin mode σ = Exc (TypeError (add_message me plugin)) σ)
  ∧ (is_plugin plugin = true ∨ callable plugin = true →
     mode ≠ "output" → mode ≠ "input" →
     ∃ σ', add self plugin mode σ
           = Exc (ValueError "mode should either be 'input' or 'output'") σ'
           ∧ calls σ' = calls σ
           ∧ (∀ p nd, heap σ !! p = Some nd → heap σ' !! p = Some nd)
           ∧ (∀ p nd, heap σ' !! p = Some nd → heap σ !! p = None → outputs nd = []))
  ∧ (is_plugin plugin = true ∨ callable plugin = true →
     mode = "output" ∨ mode = "input" →
     ∃ σ', add self plugin mode σ = Ok self σ').
Proof.
  intros Hself Hplugin. split; [|split].
  - intros Hp Hc. rewrite (add_unfold _ _ _ _ _ Hself).
    destruct plugin; try discriminate Hp; try discriminate Hc; reflexivity.
  - intros Hv Ho Hi. rewrite (add_unfold _ _ _ _ _ Hself).
    rewrite (mode_eqb_false _ _ Ho), (mode_eqb_false _ _ Hi).
    destruct plugin; try (destruct Hv; discriminate).
    + (* a callable: the wrapper is created, then the mode is rejected *)
      eexists. split; [reflexivity|]. simpl. split; [reflexivity|]. split.
      * intros p nd Hp. rewrite lookup_insert_ne; [done|].
        intros <-. rewrite fresh_heap in Hp. discriminate.
      * intros p nd Hp Hn.
        destruct (decide (fresh (dom (heap σ)) = p)) as [<-|Hne].
        -- rewrite lookup_insert_eq in Hp. by inversion Hp.
        -- rewrite lookup_insert_ne in Hp by done. congruence.
    + (* a plugin instance *)
      destruct (Hplugin p eq_refl) as [nq Hq].
      exists σ. unfold bind, PluginM.deref. rewrite Hq. simpl.
      split; [reflexivity|]. split; [reflexivity|]. split; [done|congruence].
  - intros Hv [-> | ->].
    + destruct plugin; try (destruct Hv; discriminate).
      * eexists. by eapply add_callable_output.
      * eexists. eapply add_plugin_output; eauto.
    + destruct plugin; try (destruct Hv; discriminate).
      * eexists. by eapply add_callable_input.
      * eexists. eapply add_plugin_input; eauto.
Qed.

(** ** find *)

Lemma find_app_list {A} (f : A → bool) (l1 l2 : list A) :
  List.find f (l1 ++ l2)
  = match List.find f l1 with Some x => Some x | None => List.find f l2 end.
Proof. induction l1 as [|x l1 IH]; simpl; [done|]. by destruct (f x). Qed.

Lemma find_preorder (rank : pid → nat) (type : string) σ :
  acyclic_by rank (heap σ) →
  ∀ n self, is_Some (heap σ !! self) → (rank self < n)%nat →
    PluginM.find n self type σ
    = Ok (List.find (has_type (heap σ) type) (preorder n (heap σ) self)) σ.
Proof.
  intros Hwf. induction n as [|n IH]; intros self [me Hme] Hrank; [lia|].
  cbn [PluginM.find preorder]. unfold bind at 1, PluginM.deref at 1. rewrite Hme.
  cbn [List.find]. unfold has_type at 1. rewrite Hme.
  destruct (PluginM.isinstance me type) eqn:Hty; [reflexivity|].
  assert (Hout : ∀ o, o ∈ outputs me → is_Some (heap σ !! o) ∧ (rank o < n)%nat).
  { intros o Ho. destruct (Hwf _ _ _ Hme Ho). split; [done|lia]. }
  clear Hme Hty Hrank. induction (outputs me) as [|o l IHl]; [reflexivity|].
  destruct (Hout o) as [[no Hno] Hro]; [left|].
  cbn [flat_map]. rewrite find_app_list.
  unfold bind at 1, PluginM.deref at 1. rewrite Hno.
  pose proof (IH o (ex_intro _ no Hno) Hro) as Hrec.
  destruct n as [|n']; [lia|].
  (* the check of the output before the recursive call repeats the first
     step of that call *)
  destruct (PluginM.isinstance no type) eqn:Hty.
  - cbn [preorder List.find]. unfold has_type at 1. rewrite Hno, Hty. reflexivity.
  - unfold bind at 1. rewrite Hrec.
    destruct (List.find _ (preorder _ _ o)) as [p|]; [reflexivity|].
    apply IHl. intros o' Ho'. apply Hout. by right.
Qed.

Lemma preorder_reaches h : ∀ n p r, r ∈ preorder n h p → reaches h p r.
Proof.
  induction n as [|n IH]; intros p r Hr; simpl in Hr; [by apply elem_of_nil in Hr|].
  apply elem_of_cons in Hr as [->|Hr]; [constructor|].
  destruct (h !! p) as [me|] eqn:Hme; [|by apply elem_of_nil in Hr].
  apply list_elem_of_In, in_flat_map in Hr as (q & Hq & Hr).
  eapply reaches_output; [done|by apply list_elem_of_In|].
  apply IH. by apply list_elem_of_In.
Qed.

Lemma reaches_preorder (rank : pid → nat) h p r :
  acyclic_by rank h → reaches h p r →
  ∀ n, (rank p < n)%nat → r ∈ preorder n h p.
Proof.
  intros Hwf. induction 1 as [p|p me q r Hme Hq _ IH]; intros n Hn.
  - destruct n; [lia|]. simpl. by left.
  - destruct n as [|n]; [lia|]. simpl. right. rewrite Hme.
    apply list_elem_of_In, in_flat_map. exists q. split; [by apply list_elem_of_In|].
    apply list_elem_of_In, IH. destruct (Hwf _ _ _ Hme Hq). lia.
Qed.

(** C4. On an acyclic output graph, [find(type)] is the depth-first search
    along output edges: it returns the first plugin of that type in the
    order "the receiver, then what lies behind each output, in list
    order"; what it returns is downstream of the receiver and of the type
    asked for; and it returns [None] exactly when no plugin downstream of
    the receiver has that type.  The heap is as before. *)
Theorem find_depth_first (rank : pid → nat) (n : nat) (self : pid) (type : string) σ :
  acyclic_by rank (heap σ) →
  is_Some (heap σ !! self) →
  (rank self < n)%nat →
  PluginM.find n self type σ
  = Ok (List.find (has_type (heap σ) type) (preorder n (heap σ) self)) σ
  ∧ (∀ q, PluginM.find n self type σ = Ok (Some q) σ →
          reaches (heap σ) self q ∧ has_type (heap σ) type q = true)
  ∧ (PluginM.find n self type σ = Ok None σ ↔
     ∀ q, reaches (heap σ) self q → has_type (heap σ) type q = false).
Proof.
  intros Hwf Hself Hn.
  pose proof (find_preorder rank type σ Hwf n self Hself Hn) as Heq.
  split; [exact Heq|]. rewrite Heq. split.
  - intros q Hq. inversion Hq as [Hfind]. apply find_some in Hfind as [Hin Hty].
    split; [|done]. eapply preorder_reaches. by apply list_elem_of_In.
  - split.
    + intros Hnone q Hq. inversion Hnone as [Hfind].
      eapply find_none in Hfind; [exact Hfind|].
      apply list_elem_of_In. by eapply reaches_preorder.
    + intros Hall. f_equal.
      destruct (List.find _ _) as [q|] eqn:Hfind; [|done].
      apply find_some in Hfind as [Hin Hty].
      rewrite Hall in Hty; [discriminate|].
      eapply preorder_reaches. by apply list_elem_of_In.
Qed.

(** ** Deliveries *)

Lemma perform_nil σ : perform [] σ = σ.
Proof. destruct σ. unfold perform. simpl. by rewrite app_nil_r. Qed.

Lemma perform_app cs1 cs2 σ : perform (cs1 ++ cs2) σ = perform cs2 (perform cs1 σ).
Proof. unfold perform, replay. simpl. by rewrite foldl_app, app_assoc. Qed.

Lemma received_enqueue vs v nd : enqueue v (received vs nd) = received (vs ++ [v]) nd.
Proof.
  destruct vs as [|w vs]; [reflexivity|].
  unfold received, enqueue, mailbox. simpl. by rewrite <- app_assoc.
Qed.

Lemma inbox_app p cs1 cs2 : inbox p (cs1 ++ cs2) = inbox p cs1 ++ inbox p cs2.
Proof. unfold inbox. apply omap_app. Qed.

Lemma inbox_cons_input p t v cs :
  inbox p (CInput t v :: cs) = if decide (t = p) then v :: inbox p cs else inbox p cs.
Proof. unfold inbox. simpl. by destruct (decide (t = p)). Qed.

Lemma inbox_cons_process p q x cs : inbox p (CProcess q x :: cs) = inbox p cs.
Proof. reflexivity. Qed.

Lemma inbox_snoc p cs c :
  inbox p (cs ++ [c])
  = inbox p cs ++ match c with
                  | CInput t v => if decide (t = p) then [v] else []
                  | CProcess _ _ => []
                  end.
Proof.
  rewrite inbox_app. f_equal. destruct c as [t v|]; [|done].
  rewrite inbox_cons_input. by destruct (decide (t = p)).
Qed.

Lemma replay_lookup cs h p :
  replay cs h !! p = received (inbox p cs) <$> h !! p.
Proof.
  induction cs as [|c cs IH] using rev_ind.
  - simpl. by destruct (h !! p).
  - unfold replay in *. rewrite foldl_app. simpl. rewrite inbox_snoc.
    destruct c as [t v|q v]; simpl.
    + destruct (decide (t = p)) as [->|Hne].
      * rewrite lookup_alter_eq, IH. destruct (h !! p); simpl; [|done].
        by rewrite received_enqueue.
      * rewrite lookup_alter_ne by done. by rewrite app_nil_r.
    + by rewrite app_nil_r.
Qed.

Lemma has_mailbox_replay cs h t : has_mailbox h t → has_mailbox (replay cs h) t.
Proof.
  intros (nd & Hnd & Hth & Hq & He). exists (received (inbox t cs) nd).
  rewrite replay_lookup, Hnd. split; [done|].
  destruct (inbox t cs); [done|]. simpl. eauto.
Qed.

Lemma input_has_mailbox (upd : pid → M S unit) t v ch σ :
  has_mailbox (heap σ) t →
  PluginM.input_with upd t v ch σ = Ok tt (perform [CInput t v] σ).
Proof.
  intros (nd & Hnd & Hth & [q Hq] & [b Hb]).
  unfold PluginM.input_with. unfold bind at 1, PluginM.log.
  erewrite bind_ok; [|by apply deref_ok]. rewrite Hth.
  erewrite bind_ok; [|by eapply get_queue_ok].
  erewrite bind_ok; [|by eapply modify_ok].
  unfold PluginM.get_event. unfold bind at 1. unfold bind at 1, PluginM.deref at 1.
  cbn [heap]. rewrite lookup_insert_eq. cbn [event PluginM.set_queue]. rewrite Hb.
  unfold ret at 1. unfold PluginM.modify. cbn [heap calls]. rewrite lookup_insert_eq.
  unfold perform. do 2 f_equal. cbn [replay foldl deliver].
  apply map_eq. intros i. destruct (decide (t = i)) as [<-|Hne].
  - rewrite lookup_insert_eq, lookup_alter_eq, Hnd. simpl.
    unfold enqueue, mailbox. by rewrite Hq.
  - by rewrite !lookup_insert_ne, lookup_alter_ne.
Qed.

Lemma for_each_input (upd : pid → M S unit) v (l : list pid) : ∀ σ,
  (∀ t, t ∈ l → has_mailbox (heap σ) t) →
  PluginM.for_each l (fun t => PluginM.input_with upd t v 0) σ
  = Ok tt (perform (map (fun t => CInput t v) l) σ).
Proof.
  induction l as [|t l IH]; intros σ Hl.
  - simpl. by rewrite perform_nil.
  - cbn [PluginM.for_each map].
    erewrite bind_ok; [|apply input_has_mailbox, Hl; by left].
    rewrite IH.
    + by rewrite <- perform_app.
    + intros t' Ht'. apply has_mailbox_replay, Hl. by right.
Qed.

Lemma output_performs n self me v ch σ :
  heap σ !! self = Some me →
  (∀ t, t ∈ outputs me → has_mailbox (heap σ) t) →
  channel_ok (outputs me) v ch →
  output n self v ch σ = Ok tt (perform (emit (outputs me) v ch) σ).
Proof.
  intros Hself Houts Hch. unfold PluginM.output, PluginM.output_with, emit.
  destruct (is_None v) eqn:Hv; [by rewrite perform_nil|].
  erewrite bind_ok; [|by apply deref_ok].
  destruct (0 <=? ch)%Z eqn:Hsign.
  - apply Z.leb_le in Hsign.
    destruct (outputs me !! Z.to_nat ch) as [t|] eqn:Ht.
    + apply input_has_mailbox, Houts. by eapply list_elem_of_lookup_2.
    + apply lookup_ge_None in Ht. specialize (Hch Hv Hsign). lia.
  - by apply for_each_input.
Qed.

Lemma inbox_broadcast p v (outs : list pid) :
  inbox p (map (fun t => CInput t v) outs)
  = replicate (count_occ Nat.eq_dec outs p) v.
Proof.
  induction outs as [|t outs IH]; [reflexivity|].
  cbn [map]. rewrite inbox_cons_input.
  destruct (decide (t = p)) as [->|Hne].
  - rewrite count_occ_cons_eq by done. cbn [replicate]. f_equal. exact IH.
  - rewrite count_occ_cons_neq by done. exact IH.
Qed.

(** X18. [output(value, channel)] with a value other than [None] and a
    negative channel (-1 is the default) is the loop that calls
    [input(value)] on the entries of [outputs] in list order.  On a plugin
    whose outputs were created threaded it returns after one such call per
    entry; every plugin of the heap has then received [value] as many times
    as it occurs in [outputs] (twice for a target listed twice, never for a
    plugin that is not listed). *)
Theorem output_broadcasts (n : nat) (self : pid) me (v : value) (channel : Z) σ :
  heap σ !! self = Some me →
  (∀ t, t ∈ outputs me → has_mailbox (heap σ) t) →
  is_None v = false →
  (channel < 0)%Z →
  output n self v channel σ
  = PluginM.for_each (outputs me) (fun t => input n t v 0) σ
  ∧ ∃ σ', output n self v channel σ = Ok tt σ'
        ∧ calls σ' = calls σ ++ map (fun t => CInput t v) (outputs me)
        ∧ ∀ p, heap σ' !! p
               = received (replicate (count_occ Nat.eq_dec (outputs me) p) v)
                   <$> heap σ !! p.
Proof.
  intros Hself Houts Hv Hch.
  assert (Hemit : emit (outputs me) v channel = map (fun t => CInput t v) (outputs me)).
  { unfold emit. rewrite Hv. destruct (0 <=? channel)%Z eqn:Hs; [|done].
    apply Z.leb_le in Hs. lia. }
  split.
  { unfold PluginM.output, PluginM.output_with. rewrite Hv.
    erewrite bind_ok; [|by apply deref_ok].
    by rewrite (proj2 (Z.leb_gt _ _) Hch). }
  eexists. split.
  - eapply output_performs; [done..|]. intros _ ?. lia.
  - rewrite Hemit. split; [reflexivity|]. intros p. simpl.
    by rewrite replay_lookup, inbox_broadcast.
Qed.

(** C6. [output(value, channel)] with a value other than [None] and
    [channel >= 0] is [outputs[channel].input(value)] and nothing else: if
    that output was created threaded, the call returns, [value] is appended
    to its queue, and no other plugin changes.  If [channel] is not below
    the length of [outputs], the call raises IndexError without touching
    the state, and so does the [process] run that made it. *)
Theorem output_channel (n : nat) (self : pid) me (v : value) (channel : Z) σ :
  heap σ !! self = Some me →
  is_None v = false →
  (0 <= channel)%Z →
  (∀ t, outputs me !! Z.to_nat channel = Some t →
        output n self v channel σ = input n t v 0 σ
        ∧ (has_mailbox (heap σ) t →
           ∃ σ', output n self v channel σ = Ok tt σ'
                 ∧ calls σ' = calls σ ++ [CInput t v]
                 ∧ heap σ' !! t = enqueue v <$> heap σ !! t
                 ∧ ∀ p, p ≠ t → heap σ' !! p = heap σ !! p))
  ∧ ((length (outputs me) <= Z.to_nat channel)%nat →
     output n self v channel σ = Exc (IndexError "list index out of range") σ
     ∧ ∀ k, PluginM.run_proc (output n) self (POutput v channel k) σ
            = Exc (IndexError "list index out of range") σ).
Proof.
  intros Hself Hv Hch.
  assert (Hrun : output n self v channel σ
                 = match outputs me !! Z.to_nat channel with
                   | Some t => input n t v 0 σ
                   | None => Exc (IndexError "list index out of range") σ
                   end).
  { unfold PluginM.output, PluginM.output_with. rewrite Hv.
    erewrite bind_ok; [|by apply deref_ok].
    apply Z.leb_le in Hch. rewrite Hch. by destruct (outputs me !! Z.to_nat channel). }
  split.
  - intros t Ht. rewrite Hrun, Ht. split; [reflexivity|]. intros Hbox.
    eexists. split; [by apply input_has_mailbox|]. split; [reflexivity|].
    cbn [perform heap replay foldl deliver]. split.
    + by rewrite lookup_alter_eq.
    + intros p Hp. by rewrite lookup_alter_ne.
  - intros Hlen.
    assert (Hexc : output n self v channel σ
                   = Exc (IndexError "list index out of range") σ).
    { rewrite Hrun. by rewrite (proj2 (lookup_ge_None _ _) Hlen). }
    split; [exact Hexc|]. intros k. cbn [PluginM.run_proc].
    by apply bind_exc.
Qed.

(** ** The state as seen from the plugin that drains its queue *)

Lemma inbox_emit_notin p outs v ch : p ∉ outs → inbox p (emit outs v ch) = [].
Proof.
  intros Hp. unfold emit. destruct (is_None v); [done|].
  destruct (0 <=? ch)%Z.
  - destruct (outs !! Z.to_nat ch) as [t|] eqn:Ht; [|done].
    rewrite inbox_cons_input. destruct (decide (t = p)) as [->|]; [|done].
    exfalso. apply Hp. by eapply list_elem_of_lookup_2.
  - induction outs as [|t outs IH]; [done|].
    cbn [map]. rewrite inbox_cons_input.
    destruct (decide (t = p)) as [->|].
    + exfalso. apply Hp. by left.
    + apply IH. intros Hin. apply Hp. by right.
Qed.

Lemma inbox_proc_calls_notin p outs (b : proc S) :
  p ∉ outs → inbox p (proc_calls outs b) = [].
Proof.
  intros Hp. induction b as [| |v ch k IH|a k IH]; simpl; [done|done| |done].
  by rewrite inbox_app, inbox_emit_notin, IH.
Qed.

Lemma inbox_drain_notin p self classes relay outs : ∀ items a,
  p ∉ outs → inbox p (drain process self classes relay outs a items) = [].
Proof.
  induction items as [|x rest IH]; intros a Hp; [done|].
  cbn [drain]. rewrite inbox_cons_process.
  rewrite !inbox_app, inbox_proc_calls_notin, inbox_emit_notin, IH by done.
  destruct relay; [by rewrite inbox_emit_notin|done].
Qed.

Lemma processed_app p cs1 cs2 :
  processed p (cs1 ++ cs2) = processed p cs1 ++ processed p cs2.
Proof. unfold processed. apply omap_app. Qed.

Lemma processed_emit p outs v ch : processed p (emit outs v ch) = [].
Proof.
  unfold emit. destruct (is_None v); [done|]. destruct (0 <=? ch)%Z.
  - by destruct (outs !! Z.to_nat ch).
  - by induction outs.
Qed.

Lemma processed_proc_calls p outs (b : proc S) : processed p (proc_calls outs b) = [].
Proof.
  induction b as [| |v ch k IH|a k IH]; simpl; [done|done| |done].
  by rewrite processed_app, processed_emit, IH.
Qed.

Lemma processed_drain self classes relay outs : ∀ items a,
  processed self (drain process self classes relay outs a items) = items.
Proof.
  induction items as [|x rest IH]; intros a; [done|].
  cbn [drain]. change (CProcess self x :: ?l) with ([CProcess self x] ++ l).
  rewrite !processed_app, processed_proc_calls, processed_emit, IH.
  assert (Hr : processed self (if relay then emit outs x (-1) else []) = []).
  { destruct relay; [apply processed_emit|done]. }
  rewrite Hr. unfold processed. simpl. by rewrite decide_True.
Qed.

Lemma settle_self self m cs σ : heap (settle self m cs σ) !! self = Some m.
Proof. apply lookup_insert_eq. Qed.

Lemma settle_lookup_ne self m cs σ p :
  p ≠ self → heap (settle self m cs σ) !! p = received (inbox p cs) <$> heap σ !! p.
Proof. intros Hne. simpl. by rewrite lookup_insert_ne, replay_lookup. Qed.

Lemma settle_mailbox self m cs σ t :
  t ≠ self → has_mailbox (heap σ) t → has_mailbox (heap (settle self m cs σ)) t.
Proof.
  intros Hne Hbox. destruct (has_mailbox_replay cs _ _ Hbox) as (nd & Hnd & Hok).
  exists nd. split; [|done]. simpl. by rewrite lookup_insert_ne.
Qed.

Lemma settle_settle self m1 m2 cs1 cs2 σ :
  inbox self cs2 = [] →
  settle self m2 cs2 (settle self m1 cs1 σ) = settle self m2 (cs1 ++ cs2) σ.
Proof.
  intros Hcs. unfold settle. cbn [heap calls]. rewrite app_assoc. f_equal.
  apply map_eq. intros p. destruct (decide (self = p)) as [<-|Hne].
  - by rewrite !lookup_insert_eq.
  - rewrite !lookup_insert_ne by done.
    rewrite !replay_lookup, lookup_insert_ne by done.
    rewrite replay_lookup, inbox_app.
    destruct (heap σ !! p) as [nd|]; [|done]. simpl. f_equal.
    destruct (inbox p cs1) as [|w ws]; [done|].
    destruct (inbox p cs2) as [|w' ws']; [by rewrite app_nil_r|].
    unfold received, mailbox. simpl. by rewrite <- app_assoc.
Qed.

Lemma perform_settle self m cs σ :
  heap σ !! self = Some m → inbox self cs = [] →
  perform cs σ = settle self m cs σ.
Proof.
  intros Hself Hcs. unfold perform, settle. f_equal. symmetry. apply insert_id.
  by rewrite replay_lookup, Hcs, Hself.
Qed.

Lemma settle_nil self m σ : heap σ !! self = Some m → settle self m [] σ = σ.
Proof. intros Hself. rewrite <- perform_settle by done. apply perform_nil. Qed.

Lemma log_settle self m p x σ :
  heap σ !! self = Some m →
  PluginM.log (CProcess p x) σ = Ok tt (settle self m [CProcess p x] σ).
Proof. intros Hself. by rewrite <- perform_settle. Qed.

Lemma modify_settle self f m σ :
  heap σ !! self = Some m →
  PluginM.modify self f σ = Ok tt (settle self (f m) [] σ).
Proof.
  intros Hself. rewrite (modify_ok _ _ _ _ Hself). unfold settle. simpl.
  by rewrite app_nil_r.
Qed.

Lemma output_settles n self m v σ :
  heap σ !! self = Some m →
  self ∉ outputs m →
  (∀ t, t ∈ outputs m → has_mailbox (heap σ) t) →
  output n self v (-1) σ = Ok tt (settle self m (emit (outputs m) v (-1)) σ).
Proof.
  intros Hself Hloop Houts.
  rewrite <- (perform_settle self m) by (by try apply inbox_emit_notin).
  eapply output_performs; [done|done|]. intros _ ?. lia.
Qed.

Lemma run_proc_settles n self (b : proc S) : ∀ σ m,
  heap σ !! self = Some m →
  self ∉ outputs m →
  (∀ t, t ∈ outputs m → has_mailbox (heap σ) t) →
  proc_ok (outputs m) b →
  PluginM.run_proc (output n) self b σ
  = Ok (returned b)
       (settle self (PluginM.set_attrs (proc_attrs (attrs m) b) m)
          (proc_calls (outputs m) b) σ).
Proof.
  induction b as [v|e|v ch k IH|a k IH]; intros σ m Hself Hloop Houts Hok.
  - simpl. rewrite set_attrs_same. by rewrite settle_nil.
  - destruct Hok.
  - destruct Hok as [Hch Hok]. cbn [PluginM.run_proc].
    erewrite bind_ok; [|by eapply output_performs].
    rewrite (perform_settle self m) by (by try apply inbox_emit_notin).
    rewrite (IH _ m); [| apply settle_self | done | | done].
    + cbn [proc_calls proc_attrs attrs]. unfold returned. cbn [proc_result].
      by rewrite settle_settle by (by apply inbox_proc_calls_notin).
    + intros t Ht. apply settle_mailbox; [|by apply Houts]. by intros ->.
  - cbn [PluginM.run_proc].
    erewrite bind_ok; [|by eapply modify_settle].
    rewrite (IH _ (PluginM.set_attrs a m)); [| apply settle_self | done | | done].
    + cbn [proc_calls proc_attrs attrs PluginM.set_attrs outputs].
      unfold returned. cbn [proc_result].
      by rewrite settle_settle by (by apply inbox_proc_calls_notin).
    + intros t Ht. apply settle_mailbox; [|by apply Houts]. by intros ->.
Qed.

Lemma call_process_settles n self x σ m :
  heap σ !! self = Some m →
  self ∉ outputs m →
  (∀ t, t ∈ outputs m → has_mailbox (heap σ) t) →
  proc_ok (outputs m) (process (mro m) (attrs m) x) →
  PluginM.call_process process (output n) self x σ
  = Ok (returned (process (mro m) (attrs m) x))
       (settle self
          (PluginM.set_attrs (proc_attrs (attrs m) (process (mro m) (attrs m) x)) m)
          (CProcess self x :: proc_calls (outputs m) (process (mro m) (attrs m) x)) σ).
Proof.
  intros Hself Hloop Houts Hok. unfold PluginM.call_process.
  erewrite bind_ok; [|by eapply (log_settle self m)].
  erewrite bind_ok; [|eapply deref_ok, settle_self].
  rewrite (run_proc_settles n self _ _ m); [|apply settle_self|done| |done].
  - by rewrite settle_settle by (by apply inbox_proc_calls_notin).
  - intros t Ht. apply settle_mailbox; [by intros ->|by apply Houts].
Qed.

(** ** update *)

Lemma update_settles (self : pid) : ∀ items n σ m,
  heap σ !! self = Some m →
  queue m = Some items →
  self ∉ outputs m →
  (∀ t, t ∈ outputs m → has_mailbox (heap σ) t) →
  drain_ok process (mro m) (outputs m) (attrs m) items →
  update (length items + Datatypes.S n) self σ
  = Ok tt (settle self
             (PluginM.set_attrs (drain_attrs process (mro m) (attrs m) items)
                (PluginM.set_queue [] m))
             (drain process self (mro m) (relay m) (outputs m) (attrs m) items) σ).
Proof.
  induction items as [|x rest IH]; intros n σ m Hself Hq Hloop Houts Hok.
  - cbn [length Nat.add PluginM.update].
    erewrite bind_ok; [|by eapply get_queue_ok].
    cbn [drain drain_attrs].
    replace (PluginM.set_queue [] m) with m by (destruct m; simpl in *; by subst).
    rewrite set_attrs_same. by rewrite settle_nil.
  - destruct Hok as [Hx Hok].
    cbn [length Nat.add PluginM.update].
    erewrite bind_ok; [|by eapply get_queue_ok].
    cbv beta iota zeta.
    change (PluginM.output_with (PluginM.input_with (update ?k)))
      with (output k).
    set (k := (length rest + Datatypes.S n)%nat).
    (* the item leaves the queue *)
    erewrite bind_ok; [|by eapply modify_settle].
    set (m1 := PluginM.set_queue rest m).
    set (σ1 := settle self m1 [] σ).
    assert (Hbox1 : ∀ t, t ∈ outputs m → has_mailbox (heap σ1) t).
    { intros t Ht. apply settle_mailbox; [by intros ->|by apply Houts]. }
    (* it is processed *)
    erewrite bind_ok;
      [|by apply (call_process_settles k self x σ1 m1); [apply settle_self|..]].
    cbn [mro attrs outputs PluginM.set_queue m1].
    set (b := process (mro m) (attrs m) x).
    set (m3 := PluginM.set_attrs (proc_attrs (attrs m) b) m1).
    set (σ3 := settle self m3 (CProcess self x :: proc_calls (outputs m) b) σ1).
    assert (Hbox3 : ∀ t, t ∈ outputs m → has_mailbox (heap σ3) t).
    { intros t Ht. apply settle_mailbox; [by intros ->|by apply Hbox1]. }
    (* the result goes to the outputs *)
    erewrite bind_ok; [|by apply (output_settles k self m3); [apply settle_self|..]].
    cbn [outputs m3 m1 PluginM.set_attrs PluginM.set_queue].
    set (σ4 := settle self m3 (emit (outputs m) (returned b) (-1)) σ3).
    assert (Hbox4 : ∀ t, t ∈ outputs m → has_mailbox (heap σ4) t).
    { intros t Ht. apply settle_mailbox; [by intros ->|by apply Hbox3]. }
    erewrite bind_ok; [|eapply deref_ok, settle_self].
    (* then, with relay, the item itself *)
    assert (Hrelay : (if relay m3 then output k self x (-1) else ret tt) σ4
                     = Ok tt (settle self m3
                                (if relay m then emit (outputs m) x (-1) else []) σ4)).
    { change (relay m3) with (relay m). destruct (relay m).
      - by apply (output_settles k self m3); [apply settle_self|..].
      - unfold ret. f_equal. symmetry. apply settle_nil, settle_self. }
    erewrite bind_ok; [|exact Hrelay].
    set (σ5 := settle self m3 (if relay m then emit (outputs m) x (-1) else []) σ4).
    (* and the rest of the queue *)
    unfold k. rewrite (IH n σ5 m3); [|apply settle_self|done|done| |done].
    2:{ intros t Ht. apply settle_mailbox; [by intros ->|by apply Hbox4]. }
    assert (Hrel : inbox self (if relay m then emit (outputs m) x (-1) else []) = []).
    { destruct (relay m); [by apply inbox_emit_notin|done]. }
    unfold σ5, σ4, σ3, σ1.
    rewrite !settle_settle
      by (rewrite ?inbox_app, ?inbox_cons_process, ?Hrel, ?inbox_emit_notin,
            ?inbox_proc_calls_notin, ?inbox_drain_notin by done;
          done).
    reflexivity.
Qed.

(** X19. [update()] on a plugin whose queue holds [items] (none of its
    outputs being the plugin itself, all of them created threaded, and
    [process] returning on each item) returns once the queue is empty, and
    the calls it has made are those of [drain]: for each item in queue
    order, [process(item)], then the deliveries of the result to the
    outputs, then, exactly if [relay] is set, the deliveries of the item
    itself.  So [process] sees the items in the order they were enqueued,
    and every output has received, after what it held, the values of these
    deliveries in this order. *)
Theorem update_drains_in_order (n : nat) (self : pid) me (items : list value) σ :
  heap σ !! self = Some me →
  queue me = Some items →
  self ∉ outputs me →
  (∀ t, t ∈ outputs me → has_mailbox (heap σ) t) →
  drain_ok process (mro me) (outputs me) (attrs me) items →
  let cs := drain process self (mro me) (relay me) (outputs me) (attrs me) items in
  ∃ σ', update (length items + Datatypes.S n) self σ = Ok tt σ'
        ∧ calls σ' = calls σ ++ cs
        ∧ processed self cs = items
        ∧ heap σ' !! self
          = Some (PluginM.set_attrs (drain_attrs process (mro me) (attrs me) items)
                    (PluginM.set_queue [] me))
        ∧ ∀ t, t ≠ self →
               heap σ' !! t = received (inbox t cs) <$> heap σ !! t.
Proof.
  intros Hself Hq Hloop Houts Hok cs. eexists. split.
  - by apply update_settles.
  - split; [reflexivity|]. split; [apply processed_drain|].
    split; [apply settle_self|]. intros t Ht. by apply settle_lookup_ne.
Qed.

(** ** output of None *)

Lemma output_None n self ch σ : output n self VNone ch σ = Ok tt σ.
Proof. reflexivity. Qed.

Lemma update_mute (self : pid) : ∀ items n σ me,
  heap σ !! self = Some me →
  queue me = Some items →
  relay me = false →
  (∀ x, x ∈ items → process (mro me) (attrs me) x = PReturn VNone) →
  update (length items + Datatypes.S n) self σ
  = Ok tt (mkState (<[self := PluginM.set_queue [] me]> (heap σ))
                   (calls σ ++ map (CProcess self) items)).
Proof.
  induction items as [|x rest IH]; intros n σ me Hself Hq Hrelay Hmute.
  - cbn [length Nat.add PluginM.update].
    erewrite bind_ok; [|by eapply get_queue_ok].
    replace (PluginM.set_queue [] me) with me by (destruct me; simpl in *; by subst).
    rewrite insert_id by done. simpl. rewrite app_nil_r. by destruct σ.
  - cbn [length Nat.add PluginM.update].
    erewrite bind_ok; [|by eapply get_queue_ok].
    cbv beta iota zeta.
    erewrite bind_ok; [|by eapply modify_ok].
    unfold PluginM.call_process.
    unfold bind at 1. unfold bind at 1. unfold PluginM.log at 1.
    unfold bind at 1. unfold PluginM.deref at 1. cbn [heap].
    rewrite lookup_insert_eq. cbn [mro attrs PluginM.set_queue].
    rewrite Hmute by (by left). cbn [PluginM.run_proc]. unfold ret at 1.
    unfold bind at 1. unfold PluginM.output_with at 1. cbn [is_None]. unfold ret at 1.
    unfold bind at 1. unfold PluginM.deref at 1. cbn [heap].
    rewrite lookup_insert_eq. cbn [relay calls PluginM.set_queue]. rewrite Hrelay.
    unfold bind at 1, ret at 1.
    rewrite (IH n _ (PluginM.set_queue rest me));
      [|apply lookup_insert_eq|done|done|].
    + cbn [heap calls]. rewrite insert_insert_eq. cbn [map].
      by rewrite <- app_assoc.
    + intros y Hy. apply Hmute. by right.
Qed.

(** C7. [output(None, channel)] does nothing, whatever the channel: no
    [input] call, the same state.  When [process] returns [None] for the
    items of the queue without calling [output] itself, and [relay] is not
    set, [update] makes no delivery at all: its only calls are the
    [process] calls, and only the queue of the plugin changes. *)
Theorem output_None_is_noop (n : nat) (self : pid) me (items : list value) σ :
  heap σ !! self = Some me →
  queue me = Some items →
  relay me = false →
  (∀ x, x ∈ items → process (mro me) (attrs me) x = PReturn VNone) →
  (∀ k p channel σ0, output k p VNone channel σ0 = Ok tt σ0)
  ∧ update (length items + Datatypes.S n) self σ
    = Ok tt (mkState (<[self := PluginM.set_queue [] me]> (heap σ))
                     (calls σ ++ map (CProcess self) items)).
Proof.
  intros Hself Hq Hrelay Hmute. split.
  - intros k p channel σ0. apply output_None.
  - by apply update_mute.
Qed.

End Facts.

(** * Properties of ChatQuery.process *)

Section ChatQueryFacts.
Context `{ChatQueryM.Backend}.

#[local] Abbreviation ChatQuery := ChatQueryM.ChatQuery.

Lemma invoke_result {A} (method : ChatQueryM.world → (exn + A) * ChatQueryM.world)
    (self : ChatQuery) (k : A → ChatQuery → proc ChatQuery) :
  proc_result (ChatQueryM.invoke method self k)
  = match (method (ChatQueryM.objects self)).1 with
    | inl e => inl e
    | inr a =>
        proc_result
          (k a (ChatQueryM.set_objects (method (ChatQueryM.objects self)).2 self))
    end.
Proof.
  unfold ChatQueryM.invoke.
  by destruct (method (ChatQueryM.objects self)) as [[e|a] w].
Qed.

Lemma stream_tokens_no_TypeError bot_reply (k : ChatQuery → proc ChatQuery) :
  (∀ s, ¬ raises_TypeError (k s)) →
  ∀ output self, ¬ raises_TypeError (ChatQueryM.stream_tokens bot_reply output self k).
Proof.
  intros Hk. induction output as [|token rest IH]; intros self; [apply Hk|].
  intros [msg Hr]. simpl in Hr. eapply IH. by exists msg.
Qed.

Lemma invoke_no_TypeError_from {A}
    (method : ChatQueryM.world → (exn + A) * ChatQueryM.world) self k :
  no_TypeError_from (method (ChatQueryM.objects self))
    (fun a w => ¬ raises_TypeError (k a (ChatQueryM.set_objects w self))) →
  ¬ raises_TypeError (ChatQueryM.invoke method self k).
Proof.
  unfold no_TypeError_from. intros Hm [msg Hr]. rewrite invoke_result in Hr.
  destruct (method (ChatQueryM.objects self)).1 as [e|a] eqn:He.
  - inversion Hr; subst e. discriminate Hm.
  - apply Hm. by exists msg.
Qed.

Lemma no_TypeError_from_impl {A} (r : (exn + A) * ChatQueryM.world)
    (P Q : A → ChatQueryM.world → Prop) :
  (∀ a w, P a w → Q a w) → no_TypeError_from r P → no_TypeError_from r Q.
Proof. unfold no_TypeError_from. intros HPQ. destruct r.1; [done|apply HPQ]. Qed.

Lemma generate_reply_no_TypeError_from self input kwargs history :
  reply_raises_no_TypeError self input kwargs history (ChatQueryM.objects self) →
  ¬ raises_TypeError (ChatQueryM.generate_reply self input kwargs history).
Proof.
  intros Hcalls. unfold ChatQueryM.generate_reply.
  apply invoke_no_TypeError_from.
  eapply no_TypeError_from_impl; [|exact Hcalls].
  intros [embedding position] w1 Hgen.
  apply invoke_no_TypeError_from.
  eapply no_TypeError_from_impl; [|exact Hgen].
  intros output w2 Hbot. cbn beta in Hbot.
  destruct (negb (ChatQueryM.is_ChatHistory input)).
  - apply invoke_no_TypeError_from.
    eapply no_TypeError_from_impl; [|exact Hbot].
    intros bot_reply w3 _.
    apply stream_tokens_no_TypeError. intros s4 [msg Hr]. discriminate Hr.
  - intros [msg Hr]. discriminate Hr.
Qed.

Lemma process_rejects self input kwargs :
  accepted input = false →
  ∃ msg, ChatQueryM.process self input kwargs = PRaise (TypeError msg)
         ∧ (is_plugin input = false → callable input = false →
            TypeError msg = type_error input).
Proof.
  intros Hacc. unfold ChatQueryM.process.
  destruct input; try discriminate Hacc; by eexists.
Qed.

(** C10. [ChatQuery.process(input)], called without keyword arguments as
    [update] calls it, and provided none of the calls it makes on the chat
    history and on the model for this input raises a TypeError, raises a
    TypeError exactly when [input] is neither a str, a dict nor a
    ChatHistory.  In that case the run of [process] is the raise alone
    (the check comes before any append or generation), with the message
    of line 81 (its text is given for an input that is neither a plugin
    nor a callable), and the call leaves the heap, and with it the chat
    history and the model of the plugin, as they were. *)
Theorem process_type_check (self : ChatQuery) (input : value) :
  calls_raise_no_TypeError self input ∅ →
  (raises_TypeError (ChatQueryM.process self input ∅) ↔ accepted input = false)
  ∧ (accepted input = false →
     ∃ msg,
       ChatQueryM.process self input ∅ = PRaise (TypeError msg)
       ∧ (is_plugin input = false → callable input = false →
          TypeError msg = type_error input)
       ∧ ∀ (out : pid → value → Z → M ChatQuery unit) (p : pid) nd σ,
           heap σ !! p = Some nd → attrs nd = self →
           PluginM.call_process ChatQueryM.dispatch out p input σ
           = Exc (TypeError msg) (mkState (heap σ) (calls σ ++ [CProcess p input]))).
Proof.
  intros Hcalls. split; [split|].
  - intros Hr. destruct (accepted input) eqn:Hacc; [|done]. exfalso.
    revert Hr. unfold calls_raise_no_TypeError in Hcalls.
    unfold ChatQueryM.process.
    destruct (ChatQueryM.is_str input || ChatQueryM.is_dict input) eqn:Hsd.
    + apply invoke_no_TypeError_from.
      eapply no_TypeError_from_impl; [|exact Hcalls].
      intros entry w Hreply. apply generate_reply_no_TypeError_from.
      exact Hreply.
    + destruct input; try discriminate.
      by apply generate_reply_no_TypeError_from.
  - intros Hacc. destruct (process_rejects self input ∅ Hacc) as (msg & -> & _).
    by exists msg.
  - intros Hacc. destruct (process_rejects self input ∅ Hacc) as (msg & Hp & Hmsg).
    exists msg. split; [done|]. split; [done|].
    intros out p nd σ Hnd Ha.
    unfold PluginM.call_process, bind, PluginM.log, PluginM.deref.
    cbn [heap]. rewrite Hnd. unfold ChatQueryM.dispatch. rewrite Ha, Hp.
    reflexivity.
Qed.

End ChatQueryFacts.

(** * The statements on the small pipeline *)

Lemma pipeline_lookup (p : pid) (me : Plugin unit) :
  heap Examples.pipeline !! p = Some me →
  (p = 0%nat ∧ me = Examples.source) ∨ (p = 1%nat ∧ me = Examples.filter)
  ∨ (p = 2%nat ∧ me = Examples.sink).
Proof.
  unfold Examples.pipeline, heap. intros Hp.
  apply lookup_insert_Some in Hp as [[<- <-]|[_ Hp]]; [by left|].
  apply lookup_insert_Some in Hp as [[<- <-]|[_ Hp]]; [right; by left|].
  apply lookup_singleton_Some in Hp as [<- <-]. right; by right.
Qed.

Lemma pipeline_acyclic : acyclic_by Examples.depth (heap Examples.pipeline).
Proof.
  intros p me q Hp Hq.
  destruct (pipeline_lookup p me Hp) as [[-> ->]|[[-> ->]|[-> ->]]]; simpl in Hq.
  - apply elem_of_cons in Hq as [->|Hq].
    + split; [by eexists|]. unfold Examples.depth. lia.
    + apply list_elem_of_singleton in Hq as ->.
      split; [by eexists|]. unfold Examples.depth. lia.
  - apply list_elem_of_singleton in Hq as ->.
    split; [by eexists|]. unfold Examples.depth. lia.
  - by apply elem_of_nil in Hq.
Qed.

Lemma pipeline_mailboxes (t : pid) :
  t ∈ outputs Examples.source → has_mailbox (heap Examples.pipeline) t.
Proof.
  intros Ht. simpl in Ht. apply elem_of_cons in Ht as [->|Ht].
  - exists Examples.filter. repeat split; by eauto.
  - apply list_elem_of_singleton in Ht as ->.
    exists Examples.sink. repeat split; by eauto.
Qed.

Lemma pipeline_no_loop : 0%nat ∉ outputs Examples.source.
Proof.
  simpl. intros Hin. apply elem_of_cons in Hin as [Hin|Hin]; [discriminate|].
  by apply list_elem_of_singleton in Hin.
Qed.

(** C3. A plugin with two outputs, the first created with threaded=False:
    [output('x', -1)] raises the AttributeError of that output's [input]
    (it has no queue); one [input] call has been made instead of two, and
    the second output has received nothing. *)
Theorem broadcast_stops_at_unthreaded_output :
  PluginM.output Examples.echo 1 0 (VStr "x") (-1) MoreExamples.blocked
  = Exc (AttributeError "Direct" "queue")
        (mkState (heap MoreExamples.blocked) [CInput 1%nat (VStr "x")])
  ∧ outputs MoreExamples.relaying = [1%nat; 2%nat]
  ∧ inbox 2%nat [CInput 1%nat (VStr "x")] = [].
Proof. split; [vm_compute; reflexivity|]. split; reflexivity. Qed.

(** C2. A relaying plugin with the items 7 and 8 in its queue and two
    outputs, the first created with threaded=False: [update()] raises the
    AttributeError of that output's [input] while it delivers the result of
    [process(7)].  The result has not reached the second output, 7 has not
    been relayed, and 8 is left in the queue without [process] having been
    called on it; [drain] lists the calls of the loop as documented. *)
Theorem update_stops_at_unthreaded_output :
  PluginM.update Examples.echo 3 0 MoreExamples.blocked
  = Exc (AttributeError "Direct" "queue")
        (mkState (<[0%nat := PluginM.set_queue [VInt 8] MoreExamples.relaying]>
                    (heap MoreExamples.blocked))
                 [CProcess 0%nat (VInt 7); CInput 1%nat (VInt 7)])
  ∧ drain Examples.echo 0 (mro MoreExamples.relaying) (relay MoreExamples.relaying)
      (outputs MoreExamples.relaying) tt [VInt 7; VInt 8]
    = [CProcess 0%nat (VInt 7);
       CInput 1%nat (VInt 7); CInput 2%nat (VInt 7);
       CInput 1%nat (VInt 7); CInput 2%nat (VInt 7);
       CProcess 0%nat (VInt 8);
       CInput 1%nat (VInt 8); CInput 2%nat (VInt 8);
       CInput 1%nat (VInt 8); CInput 2%nat (VInt 8)].
Proof. split; [vm_compute; reflexivity|reflexivity]. Qed.

Lemma input_not_threaded_raises_witness :
  PluginM.input PluginM.base_process 1 0 (VStr "hello") 0 Examples.inline
  = Exc (AttributeError "Direct" "queue")
        (mkState (heap Examples.inline) [CInput 0%nat (VStr "hello")]).
Proof.
  apply (input_not_threaded_raises PluginM.base_process 0 0 (VStr "hello") 0
           Examples.inline Examples.direct); reflexivity.
Defined.

Lemma add_connects_witness :
  ∃ σ' nq', PluginM.add Examples.no_attrs 0 (VPlugin 2) "input" Examples.pipeline
            = Ok 0%nat σ'
            ∧ heap σ' !! 2%nat = Some nq' ∧ outputs nq' = [0%nat]
            ∧ heap σ' !! 0%nat = Some Examples.source.
Proof.
  pose proof (add_connects Examples.no_attrs 0 Examples.source Examples.pipeline
                eq_refl) as [Hplugin _].
  destruct (Hplugin 2%nat Examples.sink eq_refl)
    as [_ (σ' & nq' & Hadd & _ & Hq & Happ & Hrest)].
  exists σ', nq'. split; [exact Hadd|]. split; [exact Hq|].
  split; [exact (proj2 (proj2 (proj2 (proj2 (proj2 (proj2 Happ))))))|].
  rewrite (Hrest 0%nat) by done. reflexivity.
Defined.

Lemma add_rejects_witness :
  PluginM.add Examples.no_attrs 0 (VInt 3) "output" Examples.pipeline
  = Exc (TypeError
           "<class 'Source'>.add() expects either a Plugin instance or a callable function (was <class 'int'>)")
        Examples.pipeline.
Proof.
  assert (Hplugin : ∀ q, VInt 3 = VPlugin q → is_Some (heap Examples.pipeline !! q))
    by discriminate.
  pose proof (add_rejects Examples.no_attrs 0 Examples.source (VInt 3) "output"
                Examples.pipeline eq_refl Hplugin) as [Htype _].
  apply Htype; reflexivity.
Defined.

Lemma find_depth_first_witness :
  PluginM.find 3 0 "Sink" Examples.pipeline = Ok (Some 2%nat) Examples.pipeline
  ∧ PluginM.find 3 0 "Missing" Examples.pipeline = Ok None Examples.pipeline.
Proof.
  assert (Hself : is_Some (heap Examples.pipeline !! 0%nat))
    by (by exists Examples.source).
  assert (Hdepth : (Examples.depth 0 < 3)%nat) by (unfold Examples.depth; lia).
  split.
  - exact (proj1 (find_depth_first Examples.depth 3 0 "Sink" Examples.pipeline
                    pipeline_acyclic Hself Hdepth)).
  - exact (proj1 (find_depth_first Examples.depth 3 0 "Missing" Examples.pipeline
                    pipeline_acyclic Hself Hdepth)).
Defined.

Lemma output_broadcasts_witness :
  ∃ σ', PluginM.output Examples.echo 0 0 (VStr "x") (-1) Examples.pipeline = Ok tt σ'
        ∧ calls σ' = [CInput 1%nat (VStr "x"); CInput 2%nat (VStr "x")]
        ∧ ∀ p, heap σ' !! p
               = received (replicate (count_occ Nat.eq_dec [1; 2]%nat p) (VStr "x"))
                   <$> heap Examples.pipeline !! p.
Proof.
  exact (proj2 (output_broadcasts Examples.echo 0 0 Examples.source (VStr "x") (-1)
                  Examples.pipeline eq_refl pipeline_mailboxes eq_refl eq_refl)).
Defined.

Lemma output_channel_witness :
  ∃ σ', PluginM.output Examples.echo 0 0 (VStr "x") 1 Examples.pipeline = Ok tt σ'
        ∧ calls σ' = [CInput 2%nat (VStr "x")]
        ∧ heap σ' !! 2%nat = Some (enqueue (VStr "x") Examples.sink)
        ∧ ∀ p, p ≠ 2%nat → heap σ' !! p = heap Examples.pipeline !! p.
Proof.
  pose proof (output_channel Examples.echo 0 0 Examples.source (VStr "x") 1
                Examples.pipeline eq_refl eq_refl ltac:(lia)) as [Hin _].
  destruct (Hin 2%nat eq_refl) as [_ Hbox].
  apply Hbox. apply pipeline_mailboxes. simpl. right. by left.
Defined.

Lemma update_drains_in_order_witness :
  ∃ σ', PluginM.update Examples.echo 3 0 Examples.pipeline = Ok tt σ'
        ∧ calls σ'
          = [CProcess 0%nat (VInt 1);
             CInput 1%nat (VInt 1); CInput 2%nat (VInt 1);
             CInput 1%nat (VInt 1); CInput 2%nat (VInt 1);
             CProcess 0%nat (VInt 2);
             CInput 1%nat (VInt 2); CInput 2%nat (VInt 2);
             CInput 1%nat (VInt 2); CInput 2%nat (VInt 2)].
Proof.
  destruct (update_drains_in_order Examples.echo 0 0 Examples.source
              [VInt 1; VInt 2] Examples.pipeline eq_refl eq_refl
              pipeline_no_loop pipeline_mailboxes)
    as (σ' & Hrun & Hcalls & _).
  { simpl. done. }
  exists σ'. split; [exact Hrun|exact Hcalls].
Defined.

Lemma output_None_is_noop_witness :
  PluginM.update Examples.mute 2 0 (Examples.waiting false)
  = Ok tt (mkState (<[0%nat := PluginM.set_queue []
                                 (mkPlugin ["Stage"; "Plugin"; "object"] false true
                                    [1]%nat (Some [VInt 7]) (Some false) tt)]>
                      (heap (Examples.waiting false)))
                   [CProcess 0%nat (VInt 7)]).
Proof.
  apply (output_None_is_noop Examples.mute 0 0 _ [VInt 7] (Examples.waiting false)
           eq_refl eq_refl eq_refl).
  intros x _. reflexivity.
Defined.

(** C7, as the claim was worded: with [relay] set, the item is delivered to
    the output although [process] returned [None] for it. *)
Lemma relay_delivers_after_None :
  ¬ silent_on_None Examples.mute 2 0 (Examples.waiting true).
Proof.
  intros Hsilent.
  destruct (PluginM.update Examples.mute 2 0 (Examples.waiting true))
    as [[] σ'| | |] eqn:Hrun; try (vm_compute in Hrun; discriminate).
  specialize (Hsilent _ (VInt 7) σ' eq_refl eq_refl eq_refl Hrun 1%nat).
  vm_compute in Hrun. inversion Hrun; subst σ'. vm_compute in Hsilent.
  discriminate.
Qed.

Lemma process_type_check_witness :
  ¬ raises_TypeError
      (ChatQueryM.process (H := Examples.scripted) Examples.query (VStr "Hello") ∅)
  ∧ ∃ msg,
      ChatQueryM.process (H := Examples.scripted) Examples.query (VInt 3) ∅
      = PRaise (TypeError msg)
      ∧ msg = "LLMQuery plugin expects inputs of type str, dict, or ChatHistory (was <class 'int'>)".
Proof.
  split.
  - assert (Hcalls : calls_raise_no_TypeError (H := Examples.scripted)
                       Examples.query (VStr "Hello") ∅) by exact I.
    pose proof (process_type_check (H := Examples.scripted) Examples.query
                  (VStr "Hello") Hcalls) as [Hiff _].
    intros Hr. apply Hiff in Hr. discriminate Hr.
  - assert (Hcalls : calls_raise_no_TypeError (H := Examples.scripted)
                       Examples.query (VInt 3) ∅) by exact I.
    pose proof (process_type_check (H := Examples.scripted) Examples.query
                  (VInt 3) Hcalls) as [_ Hrej].
    destruct (Hrej eq_refl) as (msg & Hp & Hmsg & _).
    exists msg. split; [exact Hp|].
    specialize (Hmsg eq_refl eq_refl). by inversion Hmsg.
Defined.

(** C10, as the claim was worded: with [streaming] among the keyword
    arguments, [process] raises a TypeError on a str, at the [generate]
    call and after the prompt was appended to the chat history. *)
Lemma process_raises_TypeError_on_str :
  ¬ type_check_exact (H := MoreExamples.strict) MoreExamples.strict_query
      (VStr "Hello") {[ "streaming" := VBool false ]}.
Proof.
  intros [Hiff _].
  assert (Hr : raises_TypeError
                 (ChatQueryM.process (H := MoreExamples.strict)
                    MoreExamples.strict_query (VStr "Hello")
                    {[ "streaming" := VBool false ]})).
  { eexists. vm_compute. reflexivity. }
  apply Hiff in Hr. discriminate Hr.
Qed.

(** * Invariants of the runtime *)

Section InvariantFacts.
Context {S : Type}.
Variable process : list string → S → value → proc S.
Variable callback_attrs : value → S.

Implicit Types (σ : state S) (h : gmap pid (Plugin S)) (nd me m : Plugin S).

Lemma same_plugin_refl nd : same_plugin nd nd.
Proof. by repeat split. Qed.

Lemma same_graph_refl h : same_graph h h.
Proof. intros p. destruct (h !! p); [apply same_plugin_refl|done]. Qed.

Lemma same_graph_trans h1 h2 h3 :
  same_graph h1 h2 → same_graph h2 h3 → same_graph h1 h3.
Proof.
  intros H12 H23 p. specialize (H12 p). specialize (H23 p).
  destruct (h1 !! p), (h2 !! p), (h3 !! p); try done.
  destruct H12 as (?&?&?&?&?&?), H23 as (?&?&?&?&?&?).
  repeat split; try congruence; tauto.
Qed.

Lemma same_graph_insert h p nd nd' :
  h !! p = Some nd → same_plugin nd nd' → same_graph h (<[p := nd']> h).
Proof.
  intros Hp Hsame q. destruct (decide (p = q)) as [<-|Hne].
  - by rewrite lookup_insert_eq, Hp.
  - rewrite lookup_insert_ne by done. destruct (h !! q); [apply same_plugin_refl|done].
Qed.

Lemma steady_ret {A} (a : A) : steady (S := S) (ret a).
Proof. intros σ. split; [apply same_graph_refl|done]. Qed.

Lemma steady_raise {A} e : steady (S := S) (raise (A := A) e).
Proof. intros σ. split; [apply same_graph_refl|done]. Qed.

Lemma steady_bind {A B} (c : M S A) (f : A → M S B) :
  steady c → (∀ a, steady (f a)) → steady (bind c f).
Proof.
  intros Hc Hf σ. unfold bind. specialize (Hc σ).
  destruct (c σ) as [a σ1|e σ1| |]; [|done..].
  specialize (Hf a σ1). destruct (f a σ1) as [b σ2|e σ2| |]; [| |done..].
  - destruct Hc, Hf. split; [by eapply same_graph_trans|by etrans].
  - destruct Hc, Hf. split; [by eapply same_graph_trans|by etrans].
Qed.

(** A step that leaves the graph as it is, followed by a steady
    computation. *)
Lemma steady_after {A} (k : M S A) σ σ1 :
  same_graph (heap σ) (heap σ1) → calls σ `prefix_of` calls σ1 → steady k →
  match k σ1 with
  | Ok _ σ' | Exc _ σ' => same_graph (heap σ) (heap σ') ∧ calls σ `prefix_of` calls σ'
  | Fuel | Wrong => True
  end.
Proof.
  intros Hg Hc Hk. specialize (Hk σ1).
  destruct (k σ1) as [a σ2|e σ2| |]; [| |done..];
    (destruct Hk; split; [by eapply same_graph_trans|by etrans]).
Qed.

Lemma steady_ext {A} (c c' : M S A) : (∀ σ, c σ = c' σ) → steady c → steady c'.
Proof. intros Heq Hc σ. rewrite <- Heq. apply Hc. Qed.

Lemma bind_assoc {A B C} (c : M S A) (f : A → M S B) (g : B → M S C) σ :
  bind (bind c f) g σ = bind c (fun a => bind (f a) g) σ.
Proof. unfold bind. by destruct (c σ). Qed.

Lemma steady_deref p : steady (PluginM.deref (S := S) p).
Proof.
  intros σ. unfold PluginM.deref. destruct (heap σ !! p); [|done].
  split; [apply same_graph_refl|done].
Qed.

Lemma steady_log c : steady (PluginM.log (S := S) c).
Proof. intros σ. simpl. split; [apply same_graph_refl|by apply prefix_app_r]. Qed.

Lemma steady_set_attrs p (a : S) : steady (PluginM.modify p (PluginM.set_attrs a)).
Proof.
  intros σ. unfold PluginM.modify. destruct (heap σ !! p) as [nd|] eqn:Hp; [|done].
  split; [|done]. eapply same_graph_insert; [done|]. by repeat split.
Qed.

(** Storing a queue in a plugin that has one, setting an event that is
    there. *)
Lemma steady_put p (f : list value → list value) :
  steady (S := S)
    (q <- PluginM.get_queue p ;; PluginM.modify p (PluginM.set_queue (f q))).
Proof.
  intros σ. unfold bind, PluginM.get_queue, bind, PluginM.deref, PluginM.modify.
  destruct (heap σ !! p) as [nd|] eqn:Hp; [|done].
  destruct (queue nd) as [q|] eqn:Hq; simpl; [|split; [apply same_graph_refl|done]].
  rewrite Hp. split; [|done]. eapply same_graph_insert; [done|].
  repeat split; simpl; rewrite ?Hq; eauto.
Qed.

Lemma steady_signal p (b : bool) :
  steady (S := S)
    (_ <- PluginM.get_event p ;; PluginM.modify p (PluginM.set_event b)).
Proof.
  intros σ. unfold bind, PluginM.get_event, bind, PluginM.deref, PluginM.modify.
  destruct (heap σ !! p) as [nd|] eqn:Hp; [|done].
  destruct (event nd) as [q|] eqn:Hq; simpl; [|split; [apply same_graph_refl|done]].
  rewrite Hp. split; [|done]. eapply same_graph_insert; [done|].
  repeat split; simpl; rewrite ?Hq; eauto.
Qed.

Lemma steady_enqueue p v :
  steady (S := S)
    (q <- PluginM.get_queue p ;;
     PluginM.modify p (PluginM.set_queue (q ++ [v])) ;;;
     _ <- PluginM.get_event p ;;
     PluginM.modify p (PluginM.set_event true)).
Proof.
  eapply steady_ext; [intros σ; apply bind_assoc|].
  apply steady_bind; [apply (steady_put p (fun q => q ++ [v]))|].
  intros _. apply steady_signal.
Qed.

Lemma steady_dequeue p (k : value → M S unit) :
  (∀ x, steady (k x)) →
  steady (q <- PluginM.get_queue p ;;
          match q with
          | [] => ret tt
          | x :: q' => PluginM.modify p (PluginM.set_queue q') ;;; k x
          end).
Proof.
  intros Hk σ. unfold bind at 1, PluginM.get_queue, bind at 1, PluginM.deref.
  destruct (heap σ !! p) as [nd|] eqn:Hp; [|done].
  destruct (queue nd) as [[|x q']|] eqn:Hq; simpl;
    [split; [apply same_graph_refl|done]| |split; [apply same_graph_refl|done]].
  unfold bind, PluginM.modify. rewrite Hp.
  apply steady_after; [|done|apply Hk]. simpl.
  eapply same_graph_insert; [done|]. repeat split; simpl; rewrite ?Hq; eauto.
Qed.

Lemma steady_for_each {A} (l : list A) (f : A → M S unit) :
  (∀ x, steady (f x)) → steady (PluginM.for_each l f).
Proof.
  intros Hf. induction l as [|x l IH]; [apply steady_ret|].
  simpl. apply steady_bind; [apply Hf|]. intros _. apply IH.
Qed.

Lemma steady_input_with (upd : pid → M S unit) self v ch :
  (∀ p, steady (upd p)) → steady (PluginM.input_with upd self v ch).
Proof.
  intros Hupd. unfold PluginM.input_with.
  apply steady_bind; [apply steady_log|]. intros _.
  apply steady_bind; [apply steady_deref|]. intros me.
  destruct (threaded me); [apply steady_enqueue|apply Hupd].
Qed.

Lemma steady_output_with (inp : pid → value → Z → M S unit) self v ch :
  (∀ p x c, steady (inp p x c)) → steady (PluginM.output_with inp self v ch).
Proof.
  intros Hinp. unfold PluginM.output_with.
  destruct (is_None v); [apply steady_ret|].
  apply steady_bind; [apply steady_deref|]. intros me.
  destruct (0 <=? ch)%Z.
  - destruct (outputs me !! Z.to_nat ch); [apply Hinp|apply steady_raise].
  - apply steady_for_each. intros t. apply Hinp.
Qed.

Lemma steady_run_proc (out : pid → value → Z → M S unit) self (b : proc S) :
  (∀ p x c, steady (out p x c)) → steady (PluginM.run_proc out self b).
Proof.
  intros Hout. induction b as [v|e|v ch k IH|a k IH]; simpl.
  - apply steady_ret.
  - apply steady_raise.
  - apply steady_bind; [apply Hout|]. intros _. apply IH.
  - apply steady_bind; [apply steady_set_attrs|]. intros _. apply IH.
Qed.

Lemma steady_update n : ∀ self, steady (PluginM.update process n self).
Proof.
  induction n as [|n IH]; intros self; [by intros σ|].
  assert (Hout : ∀ p x c,
             steady (PluginM.output_with (PluginM.input_with (PluginM.update process n))
                       p x c)).
  { intros p x c. apply steady_output_with. intros q y d.
    by apply steady_input_with. }
  cbn [PluginM.update]. apply steady_dequeue. intros x.
  apply steady_bind.
  { unfold PluginM.call_process.
    apply steady_bind; [apply steady_log|]. intros _.
    apply steady_bind; [apply steady_deref|]. intros me.
    by apply steady_run_proc. }
  intros r. apply steady_bind; [apply Hout|]. intros _.
  apply steady_bind; [apply steady_deref|]. intros me.
  apply steady_bind; [destruct (relay me); [apply Hout|apply steady_ret]|].
  intros _. apply IH.
Qed.

Lemma steady_input n self v ch : steady (PluginM.input process n self v ch).
Proof. apply steady_input_with. apply steady_update. Qed.

Lemma steady_output n self v ch : steady (PluginM.output process n self v ch).
Proof. apply steady_output_with. intros p x c. apply steady_input. Qed.

Lemma steady_turn n self : steady (PluginM.turn process n self).
Proof.
  intros σ. unfold PluginM.turn, bind at 1, PluginM.get_event, bind at 1, PluginM.deref.
  destruct (heap σ !! self) as [nd|] eqn:Hp; [|done].
  destruct (event nd) as [[|]|] eqn:He; simpl;
    [|done|split; [apply same_graph_refl|done]].
  unfold bind, PluginM.modify. rewrite Hp.
  apply steady_after; [|done|apply steady_update]. simpl.
  eapply same_graph_insert; [done|]. repeat split; simpl; rewrite ?He; eauto.
Qed.

(** X1. Whether they return or raise, [input], [output], [update] and a
    pass of the loop of [_run] leave the graph as it is: the same plugins,
    each with its classes, its [relay] and [threaded] flags and its list of
    outputs, and with a queue and an event exactly if it had them.  The call
    log is only added to. *)
Theorem runtime_keeps_graph (n : nat) (self : pid) (v : value) (channel : Z) :
  steady (PluginM.input process n self v channel)
  ∧ steady (PluginM.output process n self v channel)
  ∧ steady (PluginM.update process n self)
  ∧ steady (PluginM.turn process n self).
Proof.
  split; [apply steady_input|]. split; [apply steady_output|].
  split; [apply steady_update|apply steady_turn].
Qed.

End InvariantFacts.

Section GrowthFacts.
Context {S : Type}.
Variable process : list string → S → value → proc S.
Variable callback_attrs : value → S.

Implicit Types (σ : state S) (h : gmap pid (Plugin S)) (nd me m : Plugin S).

Lemma extended_refl nd : extended nd nd.
Proof. repeat split; try done. lia. Qed.

Lemma extended_edge nd dst :
  extended nd (PluginM.set_outputs (outputs nd ++ [dst]) nd).
Proof.
  repeat split; try done; simpl.
  - by apply prefix_app_r.
  - rewrite length_app. simpl. lia.
Qed.

Lemma grown_refl h : grown callback_attrs h h.
Proof.
  split.
  - intros p nd Hp. exists nd. split; [done|apply extended_refl].
  - intros p nd Hp Hn. congruence.
Qed.

Lemma grown_add_edge src dst h nd :
  h !! src = Some nd → grown callback_attrs h (add_edge src dst h).
Proof.
  intros Hsrc. split.
  - intros p nd0 Hp. destruct (decide (p = src)) as [->|Hne].
    + rewrite add_edge_lookup, Hp. eexists. split; [done|apply extended_edge].
    + rewrite add_edge_lookup_ne by done. exists nd0. split; [done|apply extended_refl].
  - intros p nd' Hp Hn. destruct (decide (p = src)) as [->|Hne]; [congruence|].
    rewrite add_edge_lookup_ne in Hp by done. congruence.
Qed.

Lemma grown_wrap src dst c f h :
  h !! c = None → (src = c ∨ dst = c) →
  grown callback_attrs h (add_edge src dst (<[c := wrapper callback_attrs f]> h)).
Proof.
  intros Hc Hsd. split.
  - intros p nd0 Hp. assert (p ≠ c) by congruence.
    destruct (decide (p = src)) as [->|Hne].
    + rewrite add_edge_lookup, lookup_insert_ne, Hp by done.
      eexists. split; [done|apply extended_edge].
    + rewrite add_edge_lookup_ne, lookup_insert_ne by done.
      exists nd0. split; [done|apply extended_refl].
  - intros p nd' Hp Hn. exists f.
    destruct (decide (p = c)) as [->|Hpc].
    + destruct (decide (c = src)) as [<-|Hne].
      * rewrite add_edge_lookup, lookup_insert_eq in Hp. inversion Hp.
        exact (extended_edge (wrapper callback_attrs f) dst).
      * rewrite add_edge_lookup_ne, lookup_insert_eq in Hp by done. inversion Hp.
        apply extended_refl.
    + destruct (decide (p = src)) as [->|Hne].
      * rewrite add_edge_lookup, lookup_insert_ne, Hn in Hp by done. discriminate.
      * rewrite add_edge_lookup_ne, lookup_insert_ne in Hp by done. congruence.
Qed.

Lemma grown_alloc c f h :
  h !! c = None → grown callback_attrs h (<[c := wrapper callback_attrs f]> h).
Proof.
  intros Hc. split.
  - intros p nd0 Hp. assert (p ≠ c) by congruence.
    rewrite lookup_insert_ne by done. exists nd0. split; [done|apply extended_refl].
  - intros p nd' Hp Hn. exists f. destruct (decide (p = c)) as [->|Hpc].
    + rewrite lookup_insert_eq in Hp. inversion Hp. apply extended_refl.
    + rewrite lookup_insert_ne in Hp by done. congruence.
Qed.

Lemma add_grows (self : pid) (plugin : value) (mode : string) σ :
  ends_in (PluginM.add callback_attrs self plugin mode) σ
    (fun σ' => grown callback_attrs (heap σ) (heap σ') ∧ calls σ' = calls σ).
Proof.
  unfold ends_in.
  destruct (heap σ !! self) as [me|] eqn:Hself;
    [|by unfold PluginM.add, bind, PluginM.deref; rewrite Hself].
  rewrite (add_unfold callback_attrs _ _ _ _ _ Hself).
  assert (Hmode : ∀ target σ1,
    is_Some (heap σ1 !! self) → is_Some (heap σ1 !! target) →
    match ((if String.eqb mode "output" then PluginM.append_output self target
            else if String.eqb mode "input" then PluginM.append_output target self
            else raise (ValueError "mode should either be 'input' or 'output'")) ;;;
           ret self) σ1 with
    | Ok _ σ' | Exc _ σ' =>
        (heap σ' = heap σ1 ∨ heap σ' = add_edge self target (heap σ1)
         ∨ heap σ' = add_edge target self (heap σ1))
        ∧ calls σ' = calls σ1
    | _ => True
    end).
  { intros target σ1 [ms Hs] [mt Ht]. destruct (String.eqb mode "output").
    - erewrite bind_ok; [|by eapply append_output_ok]. simpl. eauto.
    - destruct (String.eqb mode "input").
      + erewrite bind_ok; [|by eapply append_output_ok]. simpl. eauto.
      + simpl. eauto. }
  destruct plugin as [| | | | | | |name|q| |];
    try (simpl; split; [apply grown_refl|done]).
  - (* a callable *)
    unfold bind at 1, PluginM.Callback, PluginM.init. cbn [callable].
    set (c := fresh (dom (heap σ))).
    assert (Hc : heap σ !! c = None) by apply fresh_heap.
    assert (Hne : c ≠ self) by (by eapply fresh_not_self).
    specialize (Hmode c (mkState (<[c := wrapper callback_attrs (VFunction name)]> (heap σ))
                                 (calls σ))).
    simpl in Hmode. rewrite lookup_insert_eq, lookup_insert_ne, Hself in Hmode by done.
    specialize (Hmode (ex_intro _ _ eq_refl) (ex_intro _ _ eq_refl)).
    cbv beta. fold (wrapper callback_attrs (VFunction name)).
    match type of Hmode with
    | match ?r with _ => _ end => destruct r as [r0 σ'|e σ'| |]
    end; try done;
      (destruct Hmode as [Hh Hcalls]; rewrite Hcalls;
       destruct Hh as [Hh|[Hh|Hh]]; rewrite Hh; split; try done;
       [by apply grown_alloc|apply grown_wrap; eauto|apply grown_wrap; eauto]).
  - (* a plugin *)
    unfold bind at 1, bind at 1, PluginM.deref at 1.
    destruct (heap σ !! q) as [nq|] eqn:Hq; [|done]. unfold ret at 1.
    specialize (Hmode q σ (ex_intro _ _ Hself) (ex_intro _ _ Hq)).
    cbv beta.
    match type of Hmode with
    | match ?r with _ => _ end => destruct r as [r0 σ'|e σ'| |]
    end; try done;
      (destruct Hmode as [Hh Hcalls]; rewrite Hcalls;
       destruct Hh as [Hh|[Hh|Hh]]; rewrite Hh; split; try done;
       [apply grown_refl|by eapply grown_add_edge|by eapply grown_add_edge]).
Qed.

(** X2. Whatever its arguments and whether it returns or raises, [add]
    removes nothing: every plugin is still there with the same flags, queue,
    event and attributes, its outputs are the former ones followed by at
    most one new entry, a plugin that is new is a [Callback] with at most
    one output, and the call log is as before. *)
Theorem add_only_grows (self : pid) (plugin : value) (mode : string) σ :
  ends_in (PluginM.add callback_attrs self plugin mode) σ
    (fun σ' => grown callback_attrs (heap σ) (heap σ') ∧ calls σ' = calls σ).
Proof. apply add_grows. Qed.

End GrowthFacts.

Section ConsistencyFacts.
Context {S : Type}.
Variable process : list string → S → value → proc S.
Variable callback_attrs : value → S.

Implicit Types (σ : state S) (h : gmap pid (Plugin S)) (nd me m : Plugin S).

Lemma same_plugin_consistent nd nd' : same_plugin nd nd' → consistent nd → consistent nd'.
Proof.
  intros (_ & _ & Ht & _ & Hq & He). unfold consistent. rewrite <- Ht.
  destruct (threaded nd).
  - intros [? ?]. split; tauto.
  - intros [Hqn Hen]. rewrite Hqn in Hq. rewrite Hen in He. split.
    + destruct (queue nd'); [|done]. destruct (proj2 Hq (ex_intro _ _ eq_refl)).
      discriminate.
    + destruct (event nd'); [|done]. destruct (proj2 He (ex_intro _ _ eq_refl)).
      discriminate.
Qed.

Lemma same_graph_consistent h h' :
  same_graph h h' → consistent_heap h → consistent_heap h'.
Proof.
  intros Hg Hh p nd' Hp. specialize (Hg p). rewrite Hp in Hg.
  destruct (h !! p) as [nd|] eqn:Hnd; [|done].
  eapply same_plugin_consistent; [done|by eapply Hh].
Qed.

Lemma extended_consistent nd nd' : extended nd nd' → consistent nd → consistent nd'.
Proof.
  intros (_ & _ & Ht & Hq & He & _). unfold consistent. by rewrite <- Ht, <- Hq, <- He.
Qed.

Lemma new_plugin_consistent classes (a : S) relay threaded :
  consistent (PluginM.new_plugin classes a relay threaded).
Proof. unfold consistent. destruct threaded; simpl; eauto. Qed.

Lemma grown_consistent h h' :
  grown callback_attrs h h' → consistent_heap h → consistent_heap h'.
Proof.
  intros [Hold Hnew] Hh p nd' Hp. destruct (h !! p) as [nd|] eqn:Hnd.
  - destruct (Hold p nd Hnd) as (nd0 & Hp0 & Hext).
    assert (nd0 = nd') as -> by congruence.
    eapply extended_consistent; [done|by eapply Hh].
  - destruct (Hnew p nd' Hp Hnd) as [f Hext].
    eapply extended_consistent; [done|apply new_plugin_consistent].
Qed.

Lemma steady_ends_consistent {A} (c : M S A) σ :
  steady c → consistent_heap (heap σ) →
  ends_in c σ (fun σ' => consistent_heap (heap σ')).
Proof.
  intros Hc Hh. unfold ends_in. specialize (Hc σ).
  destruct (c σ) as [a σ'|e σ'| |]; [| |done..];
    (destruct Hc; by eapply same_graph_consistent).
Qed.

(** X3. The plugins of a heap stay as [__init__] creates them, with a
    queue and an event if threaded and with neither if not, through every
    operation, whether it returns or raises: [__init__], [add], [input],
    [output], [update] and a pass of the loop of [_run]. *)
Theorem operations_keep_consistency σ :
  consistent_heap (heap σ) →
  (∀ classes a relay threaded,
     ends_in (PluginM.init classes a relay threaded) σ
       (fun σ' => consistent_heap (heap σ')))
  ∧ (∀ self plugin mode,
       ends_in (PluginM.add callback_attrs self plugin mode) σ
         (fun σ' => consistent_heap (heap σ')))
  ∧ (∀ n self v channel,
       ends_in (PluginM.input process n self v channel) σ
         (fun σ' => consistent_heap (heap σ'))
       ∧ ends_in (PluginM.output process n self v channel) σ
           (fun σ' => consistent_heap (heap σ'))
       ∧ ends_in (PluginM.update process n self) σ
           (fun σ' => consistent_heap (heap σ'))
       ∧ ends_in (PluginM.turn process n self) σ
           (fun σ' => consistent_heap (heap σ'))).
Proof.
  intros Hh. split; [|split].
  - intros classes a relay threaded p nd. simpl.
    destruct (decide (fresh (dom (heap σ)) = p)) as [<-|Hne].
    + rewrite lookup_insert_eq. intros [= <-]. apply new_plugin_consistent.
    + rewrite lookup_insert_ne by done. apply Hh.
  - intros self plugin mode.
    pose proof (add_grows callback_attrs self plugin mode σ) as Hadd.
    unfold ends_in in *.
    destruct (PluginM.add callback_attrs self plugin mode σ) as [r σ'|e σ'| |];
      [| |done..]; (destruct Hadd; by eapply grown_consistent).
  - intros n self v channel. repeat split; apply steady_ends_consistent; try done.
    + apply steady_input.
    + apply steady_output.
    + apply steady_update.
    + apply steady_turn.
Qed.

End ConsistencyFacts.

Section CompositionFacts.
Context {S : Type}.
Variable process : list string → S → value → proc S.

Implicit Types (σ : state S) (h : gmap pid (Plugin S)) (nd me m : Plugin S).

Lemma consistent_mailbox h p nd :
  consistent_heap h → h !! p = Some nd → threaded nd = true → has_mailbox h p.
Proof.
  intros Hh Hp Ht. exists nd. specialize (Hh p nd Hp). unfold consistent in Hh.
  rewrite Ht in Hh. tauto.
Qed.

Lemma input_no_queue n self v channel σ me :
  heap σ !! self = Some me → threaded me = false → queue me = None →
  PluginM.input process (Datatypes.S n) self v channel σ
  = Exc (AttributeError (PluginM.class_name me) "queue")
        (mkState (heap σ) (calls σ ++ [CInput self v])).
Proof.
  intros Hp Ht Hq. unfold PluginM.input, PluginM.input_with.
  unfold bind at 1. unfold PluginM.log.
  erewrite bind_ok; [|by apply deref_ok]. rewrite Ht.
  by apply update_no_queue.
Qed.

(** X4. In a heap whose plugins are as [__init__] creates them, [input]
    returns exactly on the plugins created with threaded=True; on them it
    appends the item to the queue and sets the event, and changes nothing
    else. *)
Theorem input_returns_iff_threaded (n : nat) (self : pid) me (v : value)
    (channel : Z) σ :
  consistent_heap (heap σ) →
  heap σ !! self = Some me →
  ((∃ σ', PluginM.input process (Datatypes.S n) self v channel σ = Ok tt σ')
   ↔ threaded me = true)
  ∧ (threaded me = true →
     PluginM.input process (Datatypes.S n) self v channel σ
     = Ok tt (mkState (<[self := enqueue v me]> (heap σ)) (calls σ ++ [CInput self v]))).
Proof.
  intros Hh Hself.
  assert (Hok : threaded me = true →
     PluginM.input process (Datatypes.S n) self v channel σ
     = Ok tt (mkState (<[self := enqueue v me]> (heap σ)) (calls σ ++ [CInput self v]))).
  { intros Ht. unfold PluginM.input.
    rewrite input_has_mailbox by (by eapply consistent_mailbox).
    unfold perform. do 2 f_equal. cbn [replay foldl deliver].
    apply map_eq. intros p. destruct (decide (self = p)) as [<-|Hne].
    - by rewrite lookup_alter_eq, lookup_insert_eq, Hself.
    - by rewrite lookup_alter_ne, lookup_insert_ne. }
  split; [|exact Hok]. split.
  - intros [σ' Hrun]. destruct (threaded me) eqn:Ht; [done|].
    specialize (Hh self me Hself). unfold consistent in Hh. rewrite Ht in Hh.
    rewrite (input_no_queue n self v channel σ me) in Hrun by tauto. discriminate.
  - intros Ht. eexists. by apply Hok.
Qed.

Lemma new_plugin_initial (classes : list string) (a : S) (relay threaded : bool) :
  initial classes a relay threaded (PluginM.new_plugin classes a relay threaded).
Proof. by destruct threaded. Qed.

(** X5. [__init__] gives the new plugin an identity that no plugin of the
    heap has.  The plugin has the classes, attributes and flags given, no
    outputs, and an empty queue and a cleared event if threaded, neither
    if not: [update] on it returns at once if it is threaded and raises
    AttributeError if it is not.  Every other plugin and the call log are
    as before. *)
Theorem init_fresh (classes : list string) (a : S) (relay threaded : bool) σ :
  ∃ p σ' me,
    PluginM.init classes a relay threaded σ = Ok p σ'
    ∧ heap σ !! p = None
    ∧ heap σ' !! p = Some me
    ∧ initial classes a relay threaded me
    ∧ (∀ q, q ≠ p → heap σ' !! q = heap σ !! q)
    ∧ calls σ' = calls σ
    ∧ (threaded = true → has_mailbox (heap σ') p)
    ∧ ∀ n, PluginM.update process (Datatypes.S n) p σ'
           = if threaded then Ok tt σ'
             else Exc (AttributeError (PluginM.class_name me) "queue") σ'.
Proof.
  eexists _, _, _. split; [reflexivity|]. cbn [heap calls].
  split; [apply fresh_heap|]. split; [apply lookup_insert_eq|].
  split; [apply new_plugin_initial|].
  split; [intros q Hq; by rewrite lookup_insert_ne|]. split; [done|].
  split.
  - intros ->. eexists. split; [apply lookup_insert_eq|]. simpl. eauto.
  - intros n. destruct threaded.
    + cbn [PluginM.update].
      erewrite bind_ok; [|eapply get_queue_ok; [apply lookup_insert_eq|reflexivity]].
      reflexivity.
    + erewrite update_no_queue; [reflexivity|apply lookup_insert_eq|reflexivity].
Qed.

(** *** Successive inputs *)

Lemma inbox_feed p self (items : list value) :
  inbox p (map (CInput self) items) = if decide (self = p) then items else [].
Proof.
  induction items as [|x items IH]; [by destruct (decide (self = p))|].
  cbn [map]. rewrite inbox_cons_input, IH. by destruct (decide (self = p)).
Qed.

Lemma feed_performs n self (items : list value) : ∀ σ,
  has_mailbox (heap σ) self →
  feed process n self items σ = Ok tt (perform (map (CInput self) items) σ).
Proof.
  unfold feed. induction items as [|x items IH]; intros σ Hbox.
  - simpl. by rewrite perform_nil.
  - cbn [PluginM.for_each map]. unfold PluginM.input at 1.
    erewrite bind_ok; [|by apply input_has_mailbox].
    rewrite IH by (by apply has_mailbox_replay).
    by rewrite <- perform_app.
Qed.

(** X6. Successive [input] calls on a threaded plugin queue the items
    behind those that wait, in the order of the calls, and set the event;
    no other plugin changes, and the log records one call per item. *)
Theorem feed_enqueues (n : nat) (self : pid) me (items : list value) σ :
  heap σ !! self = Some me →
  threaded me = true → is_Some (queue me) → is_Some (event me) →
  ∃ σ', feed process n self items σ = Ok tt σ'
        ∧ calls σ' = calls σ ++ map (CInput self) items
        ∧ heap σ' !! self = Some (received items me)
        ∧ (∀ p, p ≠ self → heap σ' !! p = heap σ !! p)
        ∧ mailbox (received items me) = mailbox me ++ items.
Proof.
  intros Hself Ht Hq He. eexists. split.
  - apply feed_performs. by exists me.
  - split; [done|]. simpl. split; [|split].
    + by rewrite replay_lookup, inbox_feed, decide_True, Hself.
    + intros p Hp. rewrite replay_lookup, inbox_feed, decide_False by done.
      by destruct (heap σ !! p).
    + destruct items; [by rewrite app_nil_r|done].
Qed.

End CompositionFacts.

Section DrainFacts.
Context {S : Type}.
Variable process : list string → S → value → proc S.

Implicit Types (σ : state S) (h : gmap pid (Plugin S)) (nd me m : Plugin S).

Lemma received_same_plugin vs nd :
  mro (received vs nd) = mro nd ∧ relay (received vs nd) = relay nd
  ∧ threaded (received vs nd) = threaded nd
  ∧ outputs (received vs nd) = outputs nd ∧ attrs (received vs nd) = attrs nd.
Proof. by destruct vs. Qed.

Lemma received_queue vs nd q :
  queue nd = Some q → queue (received vs nd) = Some (q ++ vs).
Proof.
  intros Hq. destruct vs as [|v vs]; simpl; [by rewrite app_nil_r|].
  unfold mailbox. by rewrite Hq.
Qed.

Lemma received_event vs nd b :
  event nd = Some b →
  event (received vs nd) = Some (match vs with [] => b | _ => true end).
Proof. intros He. by destruct vs. Qed.

(** The state in which a fed plugin starts to drain its queue. *)
Lemma feed_state n self me waiting (items : list value) σ :
  heap σ !! self = Some me →
  threaded me = true → queue me = Some waiting → is_Some (event me) →
  self ∉ outputs me →
  (∀ t, t ∈ outputs me → has_mailbox (heap σ) t) →
  ∃ σ1, feed process n self items σ = Ok tt σ1
        ∧ calls σ1 = calls σ ++ map (CInput self) items
        ∧ heap σ1 !! self = Some (received items me)
        ∧ (∀ t, t ∈ outputs me → has_mailbox (heap σ1) t).
Proof.
  intros Hself Ht Hq He Hloop Houts. eexists. split.
  - apply feed_performs. exists me. eauto.
  - split; [done|]. simpl. split.
    + by rewrite replay_lookup, inbox_feed, decide_True, Hself.
    + intros t Hin. by apply has_mailbox_replay, Houts.
Qed.

(** X7. Items handed to a threaded plugin by [input] and then drained by
    [update] go through [process] in the order of the [input] calls, behind
    the items that were waiting; the queue is empty afterwards.  (The plugin
    is not its own output, its outputs are threaded and [process] returns on
    the items.) *)
Theorem feed_then_update (n k : nat) (self : pid) me (waiting items : list value) σ :
  heap σ !! self = Some me →
  threaded me = true → queue me = Some waiting → is_Some (event me) →
  self ∉ outputs me →
  (∀ t, t ∈ outputs me → has_mailbox (heap σ) t) →
  drain_ok process (mro me) (outputs me) (attrs me) (waiting ++ items) →
  let cs := drain process self (mro me) (relay me) (outputs me) (attrs me)
              (waiting ++ items) in
  ∃ σ', (feed process n self items ;;;
         PluginM.update process (length (waiting ++ items) + Datatypes.S k) self) σ
        = Ok tt σ'
        ∧ calls σ' = calls σ ++ map (CInput self) items ++ cs
        ∧ processed self cs = waiting ++ items
        ∧ ∃ m', heap σ' !! self = Some m' ∧ queue m' = Some [].
Proof.
  intros Hself Ht Hq He Hloop Houts Hok cs.
  destruct (feed_state n self me waiting items σ) as (σ1 & Hfeed & Hcalls & Hs1 & Hbox);
    try done.
  destruct (received_same_plugin items me) as (Hmro & Hrelay & _ & Houtputs & Hattrs).
  eexists. split.
  - erewrite bind_ok; [|exact Hfeed].
    apply (update_settles process self (waiting ++ items) k σ1 (received items me));
      rewrite ?Hmro, ?Houtputs, ?Hattrs; try done.
    by apply received_queue.
  - rewrite Hmro, Hrelay, Houtputs, Hattrs. split; [|split].
    + simpl. by rewrite Hcalls, <- app_assoc.
    + apply processed_drain.
    + eexists. split; [apply settle_self|done].
Qed.

Lemma turn_settles (self : pid) items n σ m :
  heap σ !! self = Some m →
  event m = Some true →
  queue m = Some items →
  self ∉ outputs m →
  (∀ t, t ∈ outputs m → has_mailbox (heap σ) t) →
  drain_ok process (mro m) (outputs m) (attrs m) items →
  PluginM.turn process (length items + Datatypes.S n) self σ
  = Ok tt (settle self
             (PluginM.set_attrs (drain_attrs process (mro m) (attrs m) items)
                (PluginM.set_queue [] (PluginM.set_event false m)))
             (drain process self (mro m) (relay m) (outputs m) (attrs m) items) σ).
Proof.
  intros Hself He Hq Hloop Houts Hok. unfold PluginM.turn.
  unfold bind at 1, PluginM.get_event, bind at 1, PluginM.deref. rewrite Hself, He.
  cbn [ret]. erewrite bind_ok; [|by eapply modify_settle].
  rewrite (update_settles process self items n _ (PluginM.set_event false m));
    [|apply settle_self|done|done| |done].
  - by rewrite settle_settle by (by apply inbox_drain_notin).
  - intros t Hin. apply settle_mailbox; [by intros ->|by apply Houts].
Qed.

(** X8. On a threaded plugin that is not its own output, whose outputs
    were created threaded and whose [process] returns on the items: after
    [input] of at least one item, one pass of the loop of [_run] clears
    the event and drains the queue.  The items go through [process] in
    the order of the [input] calls, behind those that were waiting; the
    plugin is left with an empty queue and a cleared event, so that the
    next pass waits until [input] is called again. *)
Theorem feed_then_turn (n k j : nat) (self : pid) me (waiting items : list value) σ :
  heap σ !! self = Some me →
  threaded me = true → queue me = Some waiting → is_Some (event me) →
  items ≠ [] →
  self ∉ outputs me →
  (∀ t, t ∈ outputs me → has_mailbox (heap σ) t) →
  drain_ok process (mro me) (outputs me) (attrs me) (waiting ++ items) →
  let cs := drain process self (mro me) (relay me) (outputs me) (attrs me)
              (waiting ++ items) in
  ∃ σ', (feed process n self items ;;;
         PluginM.turn process (length (waiting ++ items) + Datatypes.S k) self) σ
        = Ok tt σ'
        ∧ calls σ' = calls σ ++ map (CInput self) items ++ cs
        ∧ processed self cs = waiting ++ items
        ∧ (∃ m', heap σ' !! self = Some m' ∧ queue m' = Some []
                 ∧ event m' = Some false)
        ∧ PluginM.turn process j self σ' = Fuel.
Proof.
  intros Hself Ht Hq [b He] Hne Hloop Houts Hok cs.
  destruct (feed_state n self me waiting items σ) as (σ1 & Hfeed & Hcalls & Hs1 & Hbox);
    try done.
  destruct (received_same_plugin items me) as (Hmro & Hrelay & _ & Houtputs & Hattrs).
  assert (Hev : event (received items me) = Some true).
  { rewrite (received_event items me b He). by destruct items. }
  eexists. split.
  - erewrite bind_ok; [|exact Hfeed].
    apply (turn_settles self (waiting ++ items) k σ1 (received items me));
      rewrite ?Hmro, ?Houtputs, ?Hattrs; try done.
    by apply received_queue.
  - rewrite Hmro, Hrelay, Houtputs, Hattrs. split; [|split; [|split]].
    + simpl. by rewrite Hcalls, <- app_assoc.
    + apply processed_drain.
    + eexists. split; [apply settle_self|done].
    + unfold PluginM.turn, bind, PluginM.get_event, bind, PluginM.deref.
      by rewrite settle_self.
Qed.

End DrainFacts.

Section FailureFacts.
Context {S : Type}.
Variable process : list string → S → value → proc S.

Implicit Types (σ : state S) (h : gmap pid (Plugin S)) (nd me m : Plugin S).

Lemma run_proc_outcome n self (b : proc S) : ∀ σ m,
  heap σ !! self = Some m →
  self ∉ outputs m →
  (∀ t, t ∈ outputs m → has_mailbox (heap σ) t) →
  channels_ok (outputs m) b →
  PluginM.run_proc (PluginM.output process n) self b σ
  = let σ' := settle self (PluginM.set_attrs (proc_attrs (attrs m) b) m)
                (proc_calls (outputs m) b) σ in
    match proc_result b with
    | inr v => Ok v σ'
    | inl e => Exc e σ'
    end.
Proof.
  induction b as [v|e|v ch k IH|a k IH]; intros σ m Hself Hloop Houts Hok.
  - simpl. rewrite set_attrs_same. by rewrite settle_nil.
  - simpl. rewrite set_attrs_same. by rewrite settle_nil.
  - destruct Hok as [Hch Hok]. cbn [PluginM.run_proc].
    erewrite bind_ok; [|by eapply output_performs].
    rewrite (perform_settle self m) by (by try apply inbox_emit_notin).
    rewrite (IH _ m); [| apply settle_self | done | | done].
    + cbn [proc_calls proc_attrs attrs proc_result]. cbv zeta.
      by rewrite settle_settle by (by apply inbox_proc_calls_notin).
    + intros t Ht. apply settle_mailbox; [|by apply Houts]. by intros ->.
  - cbn [PluginM.run_proc].
    erewrite bind_ok; [|by eapply modify_settle].
    rewrite (IH _ (PluginM.set_attrs a m)); [| apply settle_self | done | | done].
    + cbn [proc_calls proc_attrs attrs PluginM.set_attrs outputs proc_result]. cbv zeta.
      by rewrite settle_settle by (by apply inbox_proc_calls_notin).
    + intros t Ht. apply settle_mailbox; [|by apply Houts]. by intros ->.
Qed.

(** X9. When [process] raises on the first item of the queue, [update]
    raises the same exception at once.  The item has left the queue and is
    not processed again, the items behind it stay in the queue, the outputs
    that [process] made before raising have been delivered, and neither a
    result nor the relayed item follows. *)
Theorem update_process_raises (n : nat) (self : pid) me (x : value)
    (rest : list value) (e : exn) σ :
  heap σ !! self = Some me →
  queue me = Some (x :: rest) →
  self ∉ outputs me →
  (∀ t, t ∈ outputs me → has_mailbox (heap σ) t) →
  channels_ok (outputs me) (process (mro me) (attrs me) x) →
  proc_result (process (mro me) (attrs me) x) = inl e →
  let b := process (mro me) (attrs me) x in
  ∃ σ', PluginM.update process (Datatypes.S n) self σ = Exc e σ'
        ∧ calls σ' = calls σ ++ CProcess self x :: proc_calls (outputs me) b
        ∧ heap σ' !! self
          = Some (PluginM.set_attrs (proc_attrs (attrs me) b) (PluginM.set_queue rest me))
        ∧ ∀ t, t ≠ self →
               heap σ' !! t
               = received (inbox t (proc_calls (outputs me) b)) <$> heap σ !! t.
Proof.
  intros Hself Hq Hloop Houts Hch Hres b. subst b.
  exists (settle self
            (PluginM.set_attrs (proc_attrs (attrs me) (process (mro me) (attrs me) x))
               (PluginM.set_queue rest me))
            (CProcess self x :: proc_calls (outputs me) (process (mro me) (attrs me) x)) σ).
  split; [|split; [done|split; [apply settle_self|]]].
  - cbn [PluginM.update].
    erewrite bind_ok; [|by eapply get_queue_ok].
    cbv beta iota zeta.
    change (PluginM.output_with (PluginM.input_with (PluginM.update process n)))
      with (PluginM.output process n).
    erewrite bind_ok; [|by eapply modify_settle].
    apply bind_exc. unfold PluginM.call_process.
    erewrite bind_ok; [|eapply (log_settle self); apply settle_self].
    erewrite bind_ok; [|eapply deref_ok, settle_self].
    rewrite (run_proc_outcome n self _ _ (PluginM.set_queue rest me));
      [|apply settle_self|done| |done].
    + cbn [mro attrs outputs PluginM.set_queue]. rewrite Hres. cbv zeta.
      rewrite !settle_settle
        by (rewrite ?inbox_app, ?inbox_cons_process, ?inbox_proc_calls_notin by done;
            done).
      reflexivity.
    + intros t Ht. apply settle_mailbox; [by intros ->|].
      apply settle_mailbox; [by intros ->|by apply Houts].
  - intros t Ht. rewrite settle_lookup_ne by done. by rewrite inbox_cons_process.
Qed.

Lemma update_raises_at_once n self me x rest e σ :
  heap σ !! self = Some me →
  queue me = Some (x :: rest) →
  process (mro me) (attrs me) x = PRaise e →
  PluginM.update process (Datatypes.S n) self σ
  = Exc e (mkState (<[self := PluginM.set_queue rest me]> (heap σ))
                   (calls σ ++ [CProcess self x])).
Proof.
  intros Hself Hq Hraise. cbn [PluginM.update].
  erewrite bind_ok; [|by eapply get_queue_ok].
  cbv beta iota zeta.
  erewrite bind_ok; [|by eapply modify_ok].
  apply bind_exc. unfold PluginM.call_process.
  unfold bind at 1, PluginM.log at 1. unfold bind at 1, PluginM.deref at 1.
  cbn [heap]. rewrite lookup_insert_eq. cbn [mro attrs PluginM.set_queue].
  by rewrite Hraise.
Qed.

Lemma for_each_app {A} (l1 l2 : list A) (f : A → M S unit) σ :
  PluginM.for_each (l1 ++ l2) f σ
  = (PluginM.for_each l1 f ;;; PluginM.for_each l2 f) σ.
Proof.
  revert σ. induction l1 as [|x l1 IH]; intros σ; [done|].
  simpl. unfold bind in *.
  destruct (f x σ) as [[] σ1|e σ1| |]; [|done..]. apply IH.
Qed.

(** X10. A broadcast stops at the first output that was created with
    threaded=False: the outputs listed before it have received the value,
    the call on it raises AttributeError (it has no queue), and the outputs
    listed after it are not called. *)
Theorem output_broadcast_aborts (n : nat) (self : pid) me (v : value) (channel : Z)
    (before after : list pid) (t : pid) nt σ :
  heap σ !! self = Some me →
  outputs me = before ++ t :: after →
  (∀ u, u ∈ before → has_mailbox (heap σ) u) →
  heap σ !! t = Some nt → threaded nt = false → queue nt = None →
  is_None v = false →
  (channel < 0)%Z →
  ∃ σ', PluginM.output process (Datatypes.S n) self v channel σ
        = Exc (AttributeError (PluginM.class_name nt) "queue") σ'
        ∧ calls σ' = calls σ ++ map (fun u => CInput u v) before ++ [CInput t v]
        ∧ ∀ p, heap σ' !! p
               = received (replicate (count_occ Nat.eq_dec before p) v)
                   <$> heap σ !! p.
Proof.
  intros Hself Houts Hbefore Ht Hth Hq Hv Hch.
  assert (Htb : t ∉ before).
  { intros Hin. destruct (Hbefore t Hin) as (nd & Hnd & Hthr & _). congruence. }
  set (σ1 := perform (map (fun u => CInput u v) before) σ).
  assert (Ht1 : heap σ1 !! t = Some nt).
  { simpl. rewrite replay_lookup, inbox_broadcast, Ht.
    rewrite (proj1 (count_occ_not_In Nat.eq_dec before t)); [done|].
    intros Hin. by apply Htb, list_elem_of_In. }
  exists (mkState (heap σ1) (calls σ1 ++ [CInput t v])). split; [|split].
  - unfold PluginM.output, PluginM.output_with. rewrite Hv.
    erewrite bind_ok; [|by apply deref_ok].
    rewrite (proj2 (Z.leb_gt _ _) Hch), Houts, for_each_app.
    erewrite bind_ok; [|by apply for_each_input].
    cbn [PluginM.for_each]. apply bind_exc.
    by apply (input_no_queue process n t v 0 σ1 nt).
  - simpl. by rewrite <- app_assoc.
  - intros p. simpl. by rewrite replay_lookup, inbox_broadcast.
Qed.

End FailureFacts.

Section BaseFacts.
Context {S : Type}.
Implicit Types (σ : state S) (me : Plugin S).

(** X11. A plugin whose class does not override [process] accepts items,
    but [update] raises NotImplementedError, naming the class, at the first
    item; that item has left the queue, the others stay, and nothing is
    delivered. *)
Theorem update_not_implemented (n : nat) (self : pid) me (x : value)
    (rest : list value) σ :
  heap σ !! self = Some me →
  queue me = Some (x :: rest) →
  PluginM.update PluginM.base_process (Datatypes.S n) self σ
  = Exc (NotImplementedError
           ("plugin " ++ type_repr (PluginM.class_name me)
              ++ " has not implemented process()"))
        (mkState (<[self := PluginM.set_queue rest me]> (heap σ))
                 (calls σ ++ [CProcess self x])).
Proof.
  intros Hself Hq. by apply (update_raises_at_once PluginM.base_process n self me x rest).
Qed.

End BaseFacts.

Section GraphFacts.
Context {S : Type}.
Variable process : list string → S → value → proc S.
Variable callback_attrs : value → S.

Implicit Types (σ : state S) (h : gmap pid (Plugin S)) (nd me m : Plugin S).

Lemma output_at_channel n self m (k : nat) t v σ :
  heap σ !! self = Some m → outputs m !! k = Some t → is_None v = false →
  PluginM.output process n self v (Z.of_nat k) σ = PluginM.input process n t v 0 σ.
Proof.
  intros Hself Hk Hv. unfold PluginM.output, PluginM.output_with. rewrite Hv.
  erewrite bind_ok; [|by apply deref_ok].
  rewrite (proj2 (Z.leb_le _ _)) by lia. by rewrite Nat2Z.id, Hk.
Qed.

(** X12. [add] returns the receiver, so that calls can be chained:
    [self.add(b).add(c)] appends [b] and then [c] to the outputs of [self]
    and changes no other plugin.  The position of an output is its channel:
    with [k] outputs before, [output(v, k)] is [b.input(v)] and
    [output(v, k+1)] is [c.input(v)]. *)
Theorem add_chain_channels (self b c : pid) me σ :
  heap σ !! self = Some me →
  is_Some (heap σ !! b) →
  is_Some (heap σ !! c) →
  ∃ σ', (r <- PluginM.add callback_attrs self (VPlugin b) "output" ;;
         PluginM.add callback_attrs r (VPlugin c) "output") σ = Ok self σ'
        ∧ heap σ' !! self = Some (PluginM.set_outputs (outputs me ++ [b; c]) me)
        ∧ (∀ p, p ≠ self → heap σ' !! p = heap σ !! p)
        ∧ ∀ n v, is_None v = false →
            PluginM.output process n self v (Z.of_nat (length (outputs me))) σ'
            = PluginM.input process n b v 0 σ'
            ∧ PluginM.output process n self v (Z.of_nat (length (outputs me)) + 1) σ'
              = PluginM.input process n c v 0 σ'.
Proof.
  intros Hself Hb [nc Hc].
  set (h1 := add_edge self b (heap σ)).
  assert (Hself1 : h1 !! self = Some (PluginM.set_outputs (outputs me ++ [b]) me)).
  { unfold h1. by rewrite add_edge_lookup, Hself. }
  assert (Hc1 : is_Some (h1 !! c)).
  { unfold h1. destruct (decide (c = self)) as [->|Hne]; [by eexists|].
    rewrite add_edge_lookup_ne by done. by eexists. }
  assert (Hself2 : add_edge self c h1 !! self
                   = Some (PluginM.set_outputs (outputs me ++ [b; c]) me)).
  { rewrite add_edge_lookup, Hself1. simpl. by rewrite <- app_assoc. }
  exists (mkState (add_edge self c h1) (calls σ)). split; [|split; [|split]].
  - erewrite bind_ok; [|by eapply add_plugin_output].
    exact (add_plugin_output callback_attrs self _ c
             (mkState h1 (calls σ)) Hself1 Hc1).
  - exact Hself2.
  - intros p Hp. simpl. unfold h1. by rewrite !add_edge_lookup_ne.
  - intros n v Hv. split.
    + eapply output_at_channel; [exact Hself2| |done]. simpl.
      by rewrite lookup_app_r, Nat.sub_diag.
    + replace (Z.of_nat (length (outputs me)) + 1)%Z
        with (Z.of_nat (Datatypes.S (length (outputs me)))) by lia.
      eapply output_at_channel; [exact Hself2| |done]. simpl.
      rewrite lookup_app_r by lia.
      by replace (Datatypes.S (length (outputs me)) - length (outputs me))%nat
        with 1%nat by lia.
Qed.

(** X13. [self.add(q, 'input')] makes the edge that [q.add(self)] makes:
    both leave the same state, and differ only in the plugin they return. *)
Theorem add_input_mirrors_output (self q : pid) σ :
  is_Some (heap σ !! self) →
  is_Some (heap σ !! q) →
  ∃ σ', PluginM.add callback_attrs self (VPlugin q) "input" σ = Ok self σ'
        ∧ PluginM.add callback_attrs q (VPlugin self) "output" σ = Ok q σ'
        ∧ heap σ' = add_edge q self (heap σ).
Proof.
  intros [me Hself] [nq Hq]. eexists. split; [|split].
  - eapply add_plugin_input; eauto.
  - eapply add_plugin_output; eauto.
  - done.
Qed.

(** *** Cycles *)

Lemma reaches_trans h p q r : reaches h p q → reaches h q r → reaches h p r.
Proof.
  induction 1 as [p|p me o q Hme Ho _ IH]; [done|].
  intros Hqr. eapply reaches_output; [done..|]. by apply IH.
Qed.

Lemma on_cycle_next h p me q :
  h !! p = Some me → q ∈ outputs me → reaches h q p → on_cycle h q.
Proof.
  intros Hme Hq Hqp.
  assert (Hpq : reaches h p q) by (eapply reaches_output; [done..|constructor]).
  inversion Hqp as [|? mq o ? Hmq Ho Hop]; subst.
  - by exists me, p.
  - exists mq, o. split; [done|]. split; [done|]. by eapply reaches_trans.
Qed.

Lemma find_no_match (type : string) σ :
  closed (heap σ) →
  (∀ q nd, heap σ !! q = Some nd → PluginM.isinstance nd type = false) →
  ∀ n p, is_Some (heap σ !! p) →
    match PluginM.find n p type σ with
    | Ok None σ' => σ' = σ
    | Fuel => True
    | _ => False
    end.
Proof.
  intros Hclosed Hno. induction n as [|n IH]; intros p [me Hme]; [done|].
  cbn [PluginM.find]. unfold bind at 1, PluginM.deref at 1. rewrite Hme.
  rewrite (Hno _ _ Hme).
  assert (Hout : ∀ o, o ∈ outputs me → is_Some (heap σ !! o))
    by (intros o Ho; by eapply Hclosed).
  clear Hme. induction (outputs me) as [|o l IHl]; [done|].
  destruct (Hout o) as [no Hno']; [by left|].
  unfold bind at 1, PluginM.deref at 1. rewrite Hno', (Hno _ _ Hno').
  unfold bind at 1. specialize (IH o (ex_intro _ _ Hno')).
  destruct (PluginM.find n o type σ) as [[r|] σ'| | |]; try done. subst σ'.
  apply IHl. intros o' Ho'. apply Hout. by right.
Qed.

Lemma find_cycle (type : string) σ :
  closed (heap σ) →
  (∀ q nd, heap σ !! q = Some nd → PluginM.isinstance nd type = false) →
  ∀ n p, on_cycle (heap σ) p → PluginM.find n p type σ = Fuel.
Proof.
  intros Hclosed Hno. induction n as [|n IH]; intros p (me & q & Hme & Hq & Hqp); [done|].
  pose proof (IH q (on_cycle_next _ _ _ _ Hme Hq Hqp)) as Hfq.
  cbn [PluginM.find]. unfold bind at 1, PluginM.deref at 1. rewrite Hme.
  rewrite (Hno _ _ Hme).
  assert (Hout : ∀ o, o ∈ outputs me → is_Some (heap σ !! o))
    by (intros o Ho; by eapply Hclosed).
  clear Hme Hqp. induction (outputs me) as [|o l IHl]; [by apply elem_of_nil in Hq|].
  destruct (Hout o) as [no Hno']; [by left|].
  unfold bind at 1, PluginM.deref at 1. rewrite Hno', (Hno _ _ Hno').
  unfold bind at 1.
  destruct (decide (o = q)) as [->|Hne]; [by rewrite Hfq|].
  pose proof (find_no_match type σ Hclosed Hno n o (ex_intro _ _ Hno')) as Hf.
  destruct (PluginM.find n o type σ) as [[r|] σ'| | |]; try done. subst σ'.
  apply IHl.
  - apply elem_of_cons in Hq as [->|Hq]; [done|exact Hq].
  - intros o' Ho'. apply Hout. by right.
Qed.

(** X14. [find] has no protection against cycles.  Called on a plugin
    that lies on a cycle of output edges, it still returns the plugin
    itself if it has the type asked for; but if no plugin of the heap has
    that type, the search never ends, whatever the recursion depth allowed
    (Python stops it with a RecursionError). *)
Theorem find_on_cycle (self : pid) (type : string) σ :
  closed (heap σ) →
  on_cycle (heap σ) self →
  (∀ me, heap σ !! self = Some me → PluginM.isinstance me type = true →
         ∀ n, PluginM.find (Datatypes.S n) self type σ = Ok (Some self) σ)
  ∧ ((∀ q nd, heap σ !! q = Some nd → PluginM.isinstance nd type = false) →
     ∀ n, PluginM.find n self type σ = Fuel).
Proof.
  intros Hclosed Hcycle. split.
  - intros me Hme Hty n. cbn [PluginM.find].
    unfold bind, PluginM.deref. by rewrite Hme, Hty.
  - intros Hno n. by apply find_cycle.
Qed.

End GraphFacts.

(** * What ChatQuery.process emits *)

Section ChatQueryStreamFacts.
Context `{ChatQueryM.Backend}.

#[local] Abbreviation ChatQuery := ChatQueryM.ChatQuery.

Lemma invoke_returns {A} (method : ChatQueryM.world → (exn + A) * ChatQueryM.world)
    (self : ChatQuery) (k : A → ChatQuery → proc ChatQuery) a w :
  method (ChatQueryM.objects self) = (inr a, w) →
  ChatQueryM.invoke method self k
  = PSetAttrs (ChatQueryM.set_objects w self) (k a (ChatQueryM.set_objects w self)).
Proof. unfold ChatQueryM.invoke. by intros ->. Qed.

Lemma stream_tokens_calls outs bot_reply (k : ChatQuery → proc ChatQuery) :
  ∀ output self,
    let self' := ChatQueryM.set_objects
                   (add_tokens bot_reply output (ChatQueryM.objects self)) self in
    proc_calls outs (ChatQueryM.stream_tokens bot_reply output self k)
    = flat_map (fun token => map (fun t => CInput t (VStr token)) outs) output
      ++ proc_calls outs (k self')
    ∧ proc_result (ChatQueryM.stream_tokens bot_reply output self k)
      = proc_result (k self')
    ∧ (∀ a, proc_attrs a (ChatQueryM.stream_tokens bot_reply output self k)
            = proc_attrs (match output with [] => a | _ => self' end) (k self'))
    ∧ (proc_ok outs (k self') →
       proc_ok outs (ChatQueryM.stream_tokens bot_reply output self k)).
Proof.
  induction output as [|token rest IH]; intros self self'.
  - subst self'. simpl. by destruct self.
  - destruct (IH (ChatQueryM.set_objects
                    (ChatQueryM.set_text bot_reply
                       (ChatQueryM.get_text bot_reply (ChatQueryM.objects self) ++ token)
                       (ChatQueryM.objects self)) self))
      as (Hcalls & Hres & Hattrs & Hok).
    subst self'. cbn [ChatQueryM.stream_tokens proc_calls proc_result proc_attrs proc_ok
                      flat_map add_tokens foldl] in *.
    cbn [ChatQueryM.objects ChatQueryM.set_objects] in *.
    split; [|split; [|split]].
    + rewrite Hcalls. by rewrite <- app_assoc.
    + exact Hres.
    + intros a. rewrite Hattrs. by destruct rest.
    + intros Hk. split; [intros _ ?; lia|by apply Hok].
Qed.

Lemma process_prompt_run (self : ChatQuery) (input : value)
    (kwargs : gmap string value) (outs : list pid)
    (user bot_reply : nat) (embedding position : value) (output : ChatQueryM.stream)
    (w1 w2 w3 w4 : ChatQueryM.world) :
  ChatQueryM.is_str input || ChatQueryM.is_dict input = true →
  ChatQueryM.append (ChatQueryM.chat_history self) "user" "msg" input
    (ChatQueryM.objects self) = (inr user, w1) →
  ChatQueryM.embed_chat (ChatQueryM.chat_history self) w1
  = (inr (embedding, position), w2) →
  ChatQueryM.generate (ChatQueryM.model self) embedding
    (ChatQueryM.get_kv_cache (ChatQueryM.chat_history self) w2)
    (generation_of self) kwargs w2 = (inr output, w3) →
  ChatQueryM.append (ChatQueryM.chat_history self) "bot" "text" (VStr "") w3
  = (inr bot_reply, w4) →
  let b := ChatQueryM.process self input kwargs in
  proc_calls outs b
  = flat_map (fun token => map (fun t => CInput t (VStr token)) outs)
      (ChatQueryM.tokens output)
  ∧ proc_result b = inr VNone
  ∧ proc_ok outs b
  ∧ proc_attrs self b
    = ChatQueryM.set_objects
        (ChatQueryM.set_kv_cache (ChatQueryM.chat_history self)
           (ChatQueryM.kv_cache output)
           (ChatQueryM.set_text bot_reply (ChatQueryM.output_text output)
              (add_tokens bot_reply (ChatQueryM.tokens output) w4)))
        self.
Proof.
  intros Hin Huser Hembed Hgen Hbot b. subst b.
  assert (Hhist : ChatQueryM.is_ChatHistory input = false)
    by (destruct input; done).
  unfold ChatQueryM.process. rewrite Hin.
  rewrite (invoke_returns _ _ _ _ _ Huser).
  unfold ChatQueryM.generate_reply.
  rewrite (invoke_returns _ _ _ (embedding, position) w2) by exact Hembed.
  rewrite (invoke_returns _ _ _ output w3) by exact Hgen.
  rewrite Hhist. cbn [negb].
  rewrite (invoke_returns _ _ _ bot_reply w4) by exact Hbot.
  cbn [proc_calls proc_result proc_attrs proc_ok].
  match goal with
  | |- context [ChatQueryM.stream_tokens ?br ?toks ?s ?k] =>
      destruct (stream_tokens_calls outs br k toks s) as (Hcalls & Hres & Hattrs & Hok)
  end.
  rewrite Hcalls, Hres, Hattrs. cbn [proc_calls proc_result proc_attrs proc_ok].
  split; [by rewrite app_nil_r|]. split; [done|]. split; [by apply Hok|].
  by destruct (ChatQueryM.tokens output).
Qed.

(** X15. Given a prompt (a str or a dict), [process] appends it to the
    chat history as the user's message, embeds the chat, starts the
    generation with the parameters of the instance, appends an empty reply,
    and then hands every token of the stream to [output], in order and on
    all channels; it returns [None].  It leaves the reply with the final
    text of the stream and the chat history with the stream's cache.  (The
    methods of the backend return.) *)
Theorem process_streams_tokens (self : ChatQuery) (input : value)
    (kwargs : gmap string value) (outs : list pid)
    (user bot_reply : nat) (embedding position : value) (output : ChatQueryM.stream)
    (w1 w2 w3 w4 : ChatQueryM.world) :
  ChatQueryM.is_str input || ChatQueryM.is_dict input = true →
  ChatQueryM.append (ChatQueryM.chat_history self) "user" "msg" input
    (ChatQueryM.objects self) = (inr user, w1) →
  ChatQueryM.embed_chat (ChatQueryM.chat_history self) w1
  = (inr (embedding, position), w2) →
  ChatQueryM.generate (ChatQueryM.model self) embedding
    (ChatQueryM.get_kv_cache (ChatQueryM.chat_history self) w2)
    (generation_of self) kwargs w2 = (inr output, w3) →
  ChatQueryM.append (ChatQueryM.chat_history self) "bot" "text" (VStr "") w3
  = (inr bot_reply, w4) →
  let b := ChatQueryM.process self input kwargs in
  proc_calls outs b
  = flat_map (fun token => map (fun t => CInput t (VStr token)) outs)
      (ChatQueryM.tokens output)
  ∧ proc_result b = inr VNone
  ∧ proc_ok outs b
  ∧ proc_attrs self b
    = ChatQueryM.set_objects
        (ChatQueryM.set_kv_cache (ChatQueryM.chat_history self)
           (ChatQueryM.kv_cache output)
           (ChatQueryM.set_text bot_reply (ChatQueryM.output_text output)
              (add_tokens bot_reply (ChatQueryM.tokens output) w4)))
        self.
Proof. apply process_prompt_run. Qed.

(** X17. [update] on a ChatQuery plugin that holds one prompt: the call
    log gains the [process] call, then one [input] call per token and
    output, token after token, then, if [relay] is set, the prompt itself
    for every output; every other plugin has received these values in this
    order.  (The plugin is not its own output, its outputs are threaded and
    the methods of the backend return.) *)
Theorem update_streams_tokens (n : nat) (self : pid) (me : Plugin ChatQuery)
    (input : value) (σ : state ChatQuery)
    (user bot_reply : nat) (embedding position : value) (output : ChatQueryM.stream)
    (w1 w2 w3 w4 : ChatQueryM.world) :
  heap σ !! self = Some me →
  queue me = Some [input] →
  self ∉ outputs me →
  (∀ t, t ∈ outputs me → has_mailbox (heap σ) t) →
  ChatQueryM.is_str input || ChatQueryM.is_dict input = true →
  ChatQueryM.append (ChatQueryM.chat_history (attrs me)) "user" "msg" input
    (ChatQueryM.objects (attrs me)) = (inr user, w1) →
  ChatQueryM.embed_chat (ChatQueryM.chat_history (attrs me)) w1
  = (inr (embedding, position), w2) →
  ChatQueryM.generate (ChatQueryM.model (attrs me)) embedding
    (ChatQueryM.get_kv_cache (ChatQueryM.chat_history (attrs me)) w2)
    (generation_of (attrs me)) ∅ w2 = (inr output, w3) →
  ChatQueryM.append (ChatQueryM.chat_history (attrs me)) "bot" "text" (VStr "") w3
  = (inr bot_reply, w4) →
  let cs := CProcess self input
            :: flat_map (fun token => map (fun t => CInput t (VStr token)) (outputs me))
                 (ChatQueryM.tokens output)
            ++ (if relay me then map (fun t => CInput t input) (outputs me) else []) in
  ∃ σ', PluginM.update ChatQueryM.dispatch (Datatypes.S (Datatypes.S n)) self σ = Ok tt σ'
        ∧ calls σ' = calls σ ++ cs
        ∧ (∃ m', heap σ' !! self = Some m' ∧ queue m' = Some [])
        ∧ ∀ t, t ≠ self → heap σ' !! t = received (inbox t cs) <$> heap σ !! t.
Proof.
  intros Hself Hq Hloop Houts Hin Huser Hembed Hgen Hbot cs.
  destruct (process_prompt_run (attrs me) input ∅ (outputs me) user bot_reply
              embedding position output w1 w2 w3 w4 Hin Huser Hembed Hgen Hbot)
    as (Hcalls & Hres & Hok & _).
  assert (Hnone : is_None input = false) by (by destruct input).
  assert (Hdrain : drain ChatQueryM.dispatch self (mro me) (relay me) (outputs me)
                     (attrs me) [input] = cs).
  { subst cs. cbn [drain]. unfold ChatQueryM.dispatch, returned.
    rewrite Hcalls, Hres. unfold emit at 1. cbn [is_None app].
    unfold emit. rewrite Hnone. cbn [Z.leb Z.compare].
    rewrite app_nil_r. by destruct (relay me). }
  eexists. split.
  - by apply (update_settles ChatQueryM.dispatch self [input] n σ me).
  - rewrite Hdrain. split; [done|]. split.
    + eexists. split; [apply settle_self|done].
    + intros t Ht. by apply settle_lookup_ne.
Qed.

(** X16. Given a ChatHistory, [process] works on that history and not on
    its own: it embeds it, starts the generation with its cache, makes no
    [output] call and returns the stream; nothing is appended. *)
Theorem process_history_returns_stream (self : ChatQuery) (history : nat)
    (kwargs : gmap string value) (outs : list pid)
    (embedding position : value) (output : ChatQueryM.stream)
    (w1 w2 : ChatQueryM.world) :
  ChatQueryM.embed_chat history (ChatQueryM.objects self)
  = (inr (embedding, position), w1) →
  ChatQueryM.generate (ChatQueryM.model self) embedding
    (ChatQueryM.get_kv_cache history w1) (generation_of self) kwargs w1
  = (inr output, w2) →
  let b := ChatQueryM.process self (VChatHistory history) kwargs in
  proc_calls outs b = []
  ∧ proc_result b = inr (VStream (ChatQueryM.stream_id output))
  ∧ proc_attrs self b = ChatQueryM.set_objects w2 self.
Proof.
  intros Hembed Hgen b. subst b.
  unfold ChatQueryM.process. cbn [ChatQueryM.is_str ChatQueryM.is_dict orb].
  unfold ChatQueryM.generate_reply.
  rewrite (invoke_returns _ _ _ (embedding, position) w1) by exact Hembed.
  rewrite (invoke_returns _ _ _ output w2) by exact Hgen.
  done.
Qed.

End ChatQueryStreamFacts.

(** * The invariants and compositions on the examples *)

Lemma pipeline_consistent : consistent_heap (heap Examples.pipeline).
Proof.
  intros p nd Hp.
  destruct (pipeline_lookup p nd Hp) as [[-> ->]|[[-> ->]|[-> ->]]];
    unfold consistent; simpl; eauto.
Qed.

Lemma pipeline_drain_ok (items : list value) :
  drain_ok Examples.echo (mro Examples.source) (outputs Examples.source)
    (attrs Examples.source) items.
Proof. induction items; simpl; auto. Qed.

Lemma ring_lookup (p : pid) (me : Plugin unit) :
  heap MoreExamples.ring !! p = Some me →
  (p = 0%nat ∧ me = MoreExamples.ping) ∨ (p = 1%nat ∧ me = MoreExamples.pong).
Proof.
  unfold MoreExamples.ring, heap. intros Hp.
  apply lookup_insert_Some in Hp as [[<- <-]|[_ Hp]]; [by left|].
  apply lookup_singleton_Some in Hp as [<- <-]. by right.
Qed.

Lemma ring_closed : closed (heap MoreExamples.ring).
Proof.
  intros p me q Hp Hq.
  destruct (ring_lookup p me Hp) as [[-> ->]|[-> ->]]; simpl in Hq;
    apply list_elem_of_singleton in Hq as ->; by eexists.
Qed.

Lemma ring_on_cycle : on_cycle (heap MoreExamples.ring) 0.
Proof.
  exists MoreExamples.ping, 1%nat. split; [done|]. split; [simpl; by left|].
  eapply reaches_output; [done|simpl; by left|constructor].
Qed.

Lemma ring_no_sink (q : pid) (nd : Plugin unit) :
  heap MoreExamples.ring !! q = Some nd → PluginM.isinstance nd "Sink" = false.
Proof. intros Hq. by destruct (ring_lookup q nd Hq) as [[-> ->]|[-> ->]]. Qed.

Lemma operations_keep_consistency_witness :
  ends_in (PluginM.update Examples.echo 3 0) Examples.pipeline
    (fun σ' => consistent_heap (heap σ'))
  ∧ ends_in (PluginM.add Examples.no_attrs 0 (VFunction "print") "sideways")
      Examples.pipeline (fun σ' => consistent_heap (heap σ')).
Proof.
  pose proof (operations_keep_consistency Examples.echo Examples.no_attrs
                Examples.pipeline pipeline_consistent) as (_ & Hadd & Hrun).
  split.
  - apply (Hrun 3%nat 0%nat VNone 0%Z).
  - apply Hadd.
Defined.

Lemma input_returns_iff_threaded_witness :
  PluginM.input Examples.echo 1 2 (VStr "x") 0 Examples.pipeline
  = Ok tt (mkState (<[2%nat := enqueue (VStr "x") Examples.sink]>
                      (heap Examples.pipeline))
                   [CInput 2%nat (VStr "x")]).
Proof.
  apply (input_returns_iff_threaded Examples.echo 0 2 Examples.sink (VStr "x") 0
           Examples.pipeline pipeline_consistent eq_refl).
  reflexivity.
Defined.

Lemma feed_enqueues_witness :
  ∃ σ', feed Examples.echo 0 2 [VInt 1; VInt 2] Examples.pipeline = Ok tt σ'
        ∧ calls σ' = [CInput 2%nat (VInt 1); CInput 2%nat (VInt 2)]
        ∧ heap σ' !! 2%nat = Some (received [VInt 1; VInt 2] Examples.sink).
Proof.
  destruct (feed_enqueues Examples.echo 0 2 Examples.sink [VInt 1; VInt 2]
              Examples.pipeline eq_refl eq_refl
              (ex_intro _ _ eq_refl) (ex_intro _ _ eq_refl))
    as (σ' & Hrun & Hcalls & Hself & _).
  exists σ'. split; [exact Hrun|]. split; [exact Hcalls|exact Hself].
Defined.

Lemma feed_then_update_witness :
  ∃ σ', (feed Examples.echo 0 0 [VInt 3] ;;; PluginM.update Examples.echo 4 0)
          Examples.pipeline = Ok tt σ'
        ∧ processed 0
            (drain Examples.echo 0 (mro Examples.source) (relay Examples.source)
               (outputs Examples.source) (attrs Examples.source)
               [VInt 1; VInt 2; VInt 3])
          = [VInt 1; VInt 2; VInt 3].
Proof.
  destruct (feed_then_update Examples.echo 0 0 0 Examples.source
              [VInt 1; VInt 2] [VInt 3] Examples.pipeline eq_refl eq_refl eq_refl
              (ex_intro _ _ eq_refl) pipeline_no_loop pipeline_mailboxes
              (pipeline_drain_ok _))
    as (σ' & Hrun & _ & Hproc & _).
  exists σ'. split; [exact Hrun|exact Hproc].
Defined.

Lemma feed_then_turn_witness :
  ∃ σ', (feed Examples.echo 0 0 [VInt 3] ;;; PluginM.turn Examples.echo 4 0)
          Examples.pipeline = Ok tt σ'
        ∧ (∃ m', heap σ' !! 0%nat = Some m' ∧ queue m' = Some []
                 ∧ event m' = Some false)
        ∧ PluginM.turn Examples.echo 5 0 σ' = Fuel.
Proof.
  assert (Hitems : [VInt 3] ≠ []) by discriminate.
  destruct (feed_then_turn Examples.echo 0 0 5 0 Examples.source
              [VInt 1; VInt 2] [VInt 3] Examples.pipeline eq_refl eq_refl eq_refl
              (ex_intro _ _ eq_refl) Hitems pipeline_no_loop pipeline_mailboxes
              (pipeline_drain_ok _))
    as (σ' & Hrun & _ & _ & Hself & Hwait).
  exists σ'. split; [exact Hrun|]. split; [exact Hself|exact Hwait].
Defined.

Lemma update_process_raises_witness :
  ∃ σ', PluginM.update MoreExamples.failing 1 0 Examples.pipeline
        = Exc (ValueError "bad item") σ'
        ∧ calls σ' = [CProcess 0%nat (VInt 1); CInput 1%nat (VInt 1)]
        ∧ heap σ' !! 0%nat = Some (PluginM.set_queue [VInt 2] Examples.source).
Proof.
  assert (Hch : channels_ok (outputs Examples.source)
                  (MoreExamples.failing (mro Examples.source)
                     (attrs Examples.source) (VInt 1))).
  { simpl. split; [|done]. intros _ _. simpl. lia. }
  destruct (update_process_raises MoreExamples.failing 0 0 Examples.source
              (VInt 1) [VInt 2] (ValueError "bad item") Examples.pipeline
              eq_refl eq_refl pipeline_no_loop pipeline_mailboxes Hch eq_refl)
    as (σ' & Hrun & Hcalls & Hself & _).
  exists σ'. split; [exact Hrun|]. split; [exact Hcalls|exact Hself].
Defined.

Lemma output_broadcast_aborts_witness :
  ∃ σ', PluginM.output Examples.echo 1 0 (VStr "x") (-1) MoreExamples.mixed
        = Exc (AttributeError "Direct" "queue") σ'
        ∧ calls σ' = [CInput 1%nat (VStr "x"); CInput 2%nat (VStr "x")]
        ∧ heap σ' !! 3%nat = Some Examples.sink.
Proof.
  assert (Hbefore : ∀ u, u ∈ [1%nat] → has_mailbox (heap MoreExamples.mixed) u).
  { intros u Hu. apply list_elem_of_singleton in Hu as ->.
    exists Examples.sink. repeat split; by eauto. }
  destruct (output_broadcast_aborts Examples.echo 0 0 MoreExamples.hub (VStr "x") (-1)
              [1%nat] [3%nat] 2 Examples.direct MoreExamples.mixed
              eq_refl eq_refl Hbefore eq_refl eq_refl eq_refl eq_refl eq_refl)
    as (σ' & Hrun & Hcalls & Hheap).
  exists σ'. split; [exact Hrun|]. split; [exact Hcalls|]. exact (Hheap 3%nat).
Defined.

Lemma update_not_implemented_witness :
  PluginM.update PluginM.base_process 1 0 Examples.pipeline
  = Exc (NotImplementedError "plugin <class 'Source'> has not implemented process()")
        (mkState (<[0%nat := PluginM.set_queue [VInt 2] Examples.source]>
                    (heap Examples.pipeline))
                 [CProcess 0%nat (VInt 1)]).
Proof.
  exact (update_not_implemented 0 0 Examples.source (VInt 1) [VInt 2]
           Examples.pipeline eq_refl eq_refl).
Defined.

Lemma add_chain_channels_witness :
  ∃ σ', (r <- PluginM.add Examples.no_attrs 2 (VPlugin 0) "output" ;;
         PluginM.add Examples.no_attrs r (VPlugin 1) "output") Examples.pipeline
        = Ok 2%nat σ'
        ∧ heap σ' !! 2%nat = Some (PluginM.set_outputs [0; 1]%nat Examples.sink).
Proof.
  destruct (add_chain_channels Examples.echo Examples.no_attrs 2 0 1 Examples.sink
              Examples.pipeline eq_refl
              (ex_intro _ Examples.source eq_refl) (ex_intro _ Examples.filter eq_refl))
    as (σ' & Hrun & Hself & _).
  exists σ'. split; [exact Hrun|exact Hself].
Defined.

Lemma add_input_mirrors_output_witness :
  ∃ σ', PluginM.add Examples.no_attrs 2 (VPlugin 0) "input" Examples.pipeline
        = Ok 2%nat σ'
        ∧ PluginM.add Examples.no_attrs 0 (VPlugin 2) "output" Examples.pipeline
          = Ok 0%nat σ'.
Proof.
  destruct (add_input_mirrors_output Examples.no_attrs 2 0 Examples.pipeline
              (ex_intro _ Examples.sink eq_refl) (ex_intro _ Examples.source eq_refl))
    as (σ' & Hin & Hout & _).
  exists σ'. split; [exact Hin|exact Hout].
Defined.

Lemma find_on_cycle_witness :
  PluginM.find 1 0 "Ping" MoreExamples.ring = Ok (Some 0%nat) MoreExamples.ring
  ∧ ∀ n, PluginM.find n 0 "Sink" MoreExamples.ring = Fuel.
Proof.
  split.
  - exact (proj1 (find_on_cycle 0 "Ping" MoreExamples.ring ring_closed ring_on_cycle)
             MoreExamples.ping eq_refl eq_refl 0%nat).
  - exact (proj2 (find_on_cycle 0 "Sink" MoreExamples.ring ring_closed ring_on_cycle)
             ring_no_sink).
Defined.

Lemma process_streams_tokens_witness :
  proc_calls [1; 2]%nat
    (ChatQueryM.process (H := Examples.scripted) Examples.query (VStr "Hello") ∅)
  = [CInput 1%nat (VStr "Hi"); CInput 2%nat (VStr "Hi");
     CInput 1%nat (VStr "!"); CInput 2%nat (VStr "!")]
  ∧ proc_result
      (ChatQueryM.process (H := Examples.scripted) Examples.query (VStr "Hello") ∅)
    = inr VNone.
Proof.
  destruct (process_streams_tokens (H := Examples.scripted) Examples.query
              (VStr "Hello") ∅ [1; 2]%nat 0 1 (VList []) (VInt 0)
              (ChatQueryM.mkStream 0 ["Hi"; "!"] "Hi!" VNone)
              [""] [""] [""] [""; ""] eq_refl eq_refl eq_refl eq_refl eq_refl)
    as (Hcalls & Hres & _).
  split; [exact Hcalls|exact Hres].
Defined.

Lemma process_history_returns_stream_witness :
  proc_calls [1; 2]%nat
    (ChatQueryM.process (H := Examples.scripted) Examples.query (VChatHistory 7) ∅)
  = []
  ∧ proc_result
      (ChatQueryM.process (H := Examples.scripted) Examples.query (VChatHistory 7) ∅)
    = inr (VStream 0).
Proof.
  destruct (process_history_returns_stream (H := Examples.scripted) Examples.query
              7 ∅ [1; 2]%nat (VList []) (VInt 0)
              (ChatQueryM.mkStream 0 ["Hi"; "!"] "Hi!" VNone) [] [] eq_refl eq_refl)
    as (Hcalls & Hres & _).
  split; [exact Hcalls|exact Hres].
Defined.

Lemma update_streams_tokens_witness :
  ∃ σ', PluginM.update (ChatQueryM.dispatch (H := Examples.scripted)) 2 0
          MoreExamples.chat = Ok tt σ'
        ∧ calls σ' = [CProcess 0%nat (VStr "Hello");
                      CInput 1%nat (VStr "Hi"); CInput 1%nat (VStr "!")].
Proof.
  assert (Hloop : 0%nat ∉ outputs MoreExamples.assistant).
  { simpl. intros Hin. by apply list_elem_of_singleton in Hin. }
  assert (Hbox : ∀ t, t ∈ outputs MoreExamples.assistant →
                      has_mailbox (heap MoreExamples.chat) t).
  { intros t Ht. simpl in Ht. apply list_elem_of_singleton in Ht as ->.
    exists MoreExamples.listener. repeat split; by eauto. }
  destruct (update_streams_tokens (H := Examples.scripted) 0 0 MoreExamples.assistant
              (VStr "Hello") MoreExamples.chat 0 1 (VList []) (VInt 0)
              (ChatQueryM.mkStream 0 ["Hi"; "!"] "Hi!" VNone)
              [""] [""] [""] [""; ""] eq_refl eq_refl Hloop Hbox
              eq_refl eq_refl eq_refl eq_refl eq_refl)
    as (σ' & Hrun & Hcalls & _).
  exists σ'. split; [exact Hrun|exact Hcalls].
Defined.
